(** * simple-agent: the cache-then-persist protocol of the MCP server
      and the streaming turn of the CLI

    A shallow embedding of
    - [apps/mcp-server/src/server.ts]: the search cache, [cleanupSearchCache],
      [saveNewsRows], [renderSources], [renderDbRows] and the tool handlers
      [search_web] and [save_to_db];
    - the topic-news repository ([createTopicNewsRepository]): [saveMany],
      [listByTopic], [listAll], [getById] over the [topic_news] table;
    - [apps/cli]: [extractChunkText] and [runTurn].

    Conventions.  A JS string is a [string] whose characters are the code
    units below 256.  Integer-valued JS numbers (timestamps in milliseconds,
    row ids, limits) are [Z].  An optional field ([title?: string]) is an
    [option].  A JS [Map] is an association list in insertion order with
    pairwise distinct keys.  Readings of the outside world ([Date.now()],
    [randomUUID()], [datetime('now')], the answer of the search service, the
    platform's URL parser) are arguments of the functions that consume them. *)

From Stdlib Require Import List ZArith Lia Bool Arith String Ascii.
From Stdlib Require Import Permutation Sorted DecimalString.
Import ListNotations.

Open Scope string_scope.
Open Scope list_scope.
Open Scope Z_scope.

(** ** JavaScript string helpers *)

(** String concatenation, as in a template literal. *)
Infix "+++" := String.append (right associativity, at level 60).

Module Js.

(** The line feed of ["\n"]. *)
Definition nl : string := String (ascii_of_nat 10) EmptyString.

(** The white space and line terminators that [String.prototype.trim]
    strips, among the code units below 256: TAB, LF, VT, FF, CR, SP, NBSP. *)
Definition is_white_space (c : ascii) : bool :=
  match nat_of_ascii c with
  | 9%nat | 10%nat | 11%nat | 12%nat | 13%nat | 32%nat | 160%nat => true
  | _ => false
  end.

Fixpoint trimStart (s : string) : string :=
  match s with
  | EmptyString => EmptyString
  | String c s' => if is_white_space c then trimStart s' else s
  end.

Definition reverse (s : string) : string :=
  string_of_list_ascii (rev (list_ascii_of_string s)).

Definition trimEnd (s : string) : string :=
  reverse (trimStart (reverse s)).

Definition trim (s : string) : string := trimEnd (trimStart s).

(** Truthiness of a string: every string but the empty one. *)
Definition truthy (s : string) : bool :=
  match s with EmptyString => false | String _ _ => true end.

(** [a || b] on strings. *)
Definition or_else (a b : string) : string := if truthy a then a else b.

(** [o?.trim() || b]: an absent field is [undefined], which is falsy. *)
Definition trimmed_or (o : option string) (b : string) : string :=
  match o with
  | Some s => or_else (trim s) b
  | None => b
  end.

(** [o ?? b]. *)
Definition nullish (o : option string) (b : string) : string :=
  match o with Some s => s | None => b end.

(** [s.slice(0, n)]. *)
Definition slice0 (n : nat) (s : string) : string := substring 0 n s.

(** [`${n}`] for an integer-valued number. *)
Definition show_nat (n : nat) : string := NilZero.string_of_uint (Nat.to_uint n).
Definition show_Z (z : Z) : string := NilZero.string_of_int (Z.to_int z).

(** [l.join(sep)]. *)
Definition join (sep : string) (l : list string) : string := String.concat sep l.

(** [l.slice(0, n)] on arrays. *)
Definition take {A : Type} (n : nat) (l : list A) : list A := firstn n l.

(** [l.map((x, i) => f(x, i))]. *)
Fixpoint mapi_from {A B : Type} (i : nat) (f : A -> nat -> B) (l : list A) : list B :=
  match l with
  | [] => []
  | x :: l' => f x i :: mapi_from (S i) f l'
  end.

Definition mapi {A B : Type} (f : A -> nat -> B) (l : list A) : list B :=
  mapi_from 0 f l.

End Js.

(** ** The search cache of server.ts *)

Module Cache.

Record SearchResult : Type := mkSearchResult {
  sr_title : option string;
  sr_url : option string;
  sr_date : option string;
  sr_snippet : option string
}.

Record CachedSearchResult : Type := mkCached {
  query : string;
  answerText : string;
  sources : list SearchResult;
  createdAt : Z
}.

(** [Map<string, CachedSearchResult>]: entries in insertion order. *)
Definition SearchCache : Type := list (string * CachedSearchResult).

Definition SEARCH_CACHE_TTL_MS : Z := 30 * 60 * 1000.
Definition SEARCH_CACHE_MAX_ITEMS : nat := 200.

Definition keys (c : SearchCache) : list string := map fst c.

(** [searchCache.size] *)
Definition size (c : SearchCache) : nat := List.length c.

(** [searchCache.get(id)] *)
Fixpoint get (id : string) (c : SearchCache) : option CachedSearchResult :=
  match c with
  | [] => None
  | (k, v) :: c' => if String.eqb id k then Some v else get id c'
  end.

(** [searchCache.delete(id)] *)
Definition delete (id : string) (c : SearchCache) : SearchCache :=
  filter (fun e => negb (String.eqb id (fst e))) c.

(** [searchCache.set(id, v)]: an existing key keeps its place in the
    iteration order, a new key goes last. *)
Fixpoint set (id : string) (v : CachedSearchResult) (c : SearchCache) : SearchCache :=
  match c with
  | [] => [(id, v)]
  | (k, w) :: c' => if String.eqb id k then (id, v) :: c' else (k, w) :: set id v c'
  end.

(** [now - value.createdAt > SEARCH_CACHE_TTL_MS] *)
Definition expired (now : Z) (v : CachedSearchResult) : bool :=
  now - createdAt v >? SEARCH_CACHE_TTL_MS.

(** The first loop of [cleanupSearchCache]: every entry is visited once and
    deleted from the map when it is too old. *)
Definition expire_pass (now : Z) (c : SearchCache) : SearchCache :=
  fold_left (fun m e => if expired now (snd e) then delete (fst e) m else m) c c.

(** [entries.sort((a, b) => a[1].createdAt - b[1].createdAt)]: the sort of
    an array is stable, so entries of equal age keep their insertion order. *)
Fixpoint insert_sorted (e : string * CachedSearchResult)
  (l : list (string * CachedSearchResult)) : list (string * CachedSearchResult) :=
  match l with
  | [] => [e]
  | y :: l' =>
      if createdAt (snd e) <=? createdAt (snd y) then e :: l
      else y :: insert_sorted e l'
  end.

Definition sort_by_createdAt (l : list (string * CachedSearchResult))
  : list (string * CachedSearchResult) :=
  fold_right insert_sorted [] l.

(** The second loop: delete the ids of a list of entries. *)
Definition delete_all (victims : list (string * CachedSearchResult))
  (c : SearchCache) : SearchCache :=
  fold_left (fun m e => delete (fst e) m) victims c.

Definition cleanupSearchCache (now : Z) (c : SearchCache) : SearchCache :=
  let c1 := expire_pass now c in
  if (size c1 <=? SEARCH_CACHE_MAX_ITEMS)%nat then c1
  else
    let entries := sort_by_createdAt c1 in
    delete_all (Js.take (size c1 - SEARCH_CACHE_MAX_ITEMS) entries) c1.

(** Vocabulary for the statements about the cache. *)

Definition older_or_equal (a b : string * CachedSearchResult) : Prop :=
  createdAt (snd a) <= createdAt (snd b).

(** Membership of the key of an entry in a list of keys. *)
Definition key_in (ks : list string) (e : string * CachedSearchResult) : bool :=
  existsb (String.eqb (fst e)) ks.

(** The entries that the age pass leaves. *)
Definition survivors (now : Z) (c : SearchCache) : SearchCache :=
  filter (fun e => negb (expired now (snd e))) c.



(** A cache for examples: [n] entries with handles ["0"], ["1"], ... created
    at the milliseconds 0, 1, ... *)
Definition numbered_cache (n : nat) : SearchCache :=
  map (fun i => (Js.show_nat i, mkCached "q" "a" [] (Z.of_nat i))) (seq 0 n).

End Cache.

(** ** The topic_news repository *)

Module TopicNews.

Record TopicNewsRow : Type := mkRow {
  id : Z;
  topic : string;
  source : string;
  title : string;
  url : string;
  summary : string;
  created_at : string
}.

Record TopicNewsInsert : Type := mkInsert {
  new_topic : string;
  new_source : string;
  new_title : string;
  new_url : string;
  new_summary : string
}.

(** The database behind the prepared statements: the rows of [topic_news]
    in the order they were inserted, and the AUTOINCREMENT counter that
    SQLite keeps in [sqlite_sequence] (the largest rowid ever handed out). *)
Record Db : Type := mkDb {
  table : list TopicNewsRow;
  sqlite_sequence : Z
}.

(** The state right after [CREATE TABLE IF NOT EXISTS] on a new file. *)
Definition empty_db : Db := mkDb [] 0.

Definition max_rowid (t : list TopicNewsRow) : Z :=
  fold_right (fun r m => Z.max (id r) m) 0 t.

(** [insert.run(topic, source, title, url, summary)]: with
    [INTEGER PRIMARY KEY AUTOINCREMENT] the new rowid is one more than the
    largest rowid that ever existed in the table; [stamp] is what
    [datetime('now')] evaluates to.  The result is the new database and
    [lastInsertRowid]. *)
Definition insert_run (stamp : string) (row : TopicNewsInsert) (db : Db) : Db * Z :=
  let rowid := Z.max (sqlite_sequence db) (max_rowid (table db)) + 1 in
  (mkDb (table db ++ [mkRow rowid (new_topic row) (new_source row) (new_title row)
                        (new_url row) (new_summary row) stamp])
        rowid,
   rowid).

(** The loop of [saveMany]; [stamps i] is the reading of [datetime('now')]
    for the row at position [i] of the batch.  [lastInsertRowid] is a number
    or a bigint, and both branches push it. *)
Fixpoint saveMany_loop (stamps : nat -> string) (i : nat) (rows : list TopicNewsInsert)
  (db : Db) (insertedIds : list Z) : Db * list Z :=
  match rows with
  | [] => (db, insertedIds)
  | row :: rest =>
      let '(db', rowid) := insert_run (stamps i) row db in
      saveMany_loop stamps (S i) rest db' (insertedIds ++ [rowid])
  end.

Definition saveMany (stamps : nat -> string) (rows : list TopicNewsInsert) (db : Db)
  : Db * list Z :=
  saveMany_loop stamps 0 rows db [].

(** [ORDER BY created_at DESC]: the column is TEXT and compares as text.
    Rows with equal [created_at] are left in table order here; SQLite
    promises no order among them. *)
Fixpoint insert_desc (r : TopicNewsRow) (l : list TopicNewsRow) : list TopicNewsRow :=
  match l with
  | [] => [r]
  | y :: l' =>
      if String.leb (created_at y) (created_at r) then r :: l
      else y :: insert_desc r l'
  end.

Definition order_by_created_at_desc (l : list TopicNewsRow) : list TopicNewsRow :=
  fold_right insert_desc [] l.

(** [LIMIT ?]: a negative limit means no upper bound in SQLite. *)
Definition sql_limit {A : Type} (limit : Z) (l : list A) : list A :=
  if limit <? 0 then l else firstn (Z.to_nat limit) l.

Definition selectByTopic (t : string) (limit : Z) (db : Db) : list TopicNewsRow :=
  sql_limit limit
    (order_by_created_at_desc (filter (fun r => String.eqb (topic r) t) (table db))).

Definition selectAll (limit : Z) (db : Db) : list TopicNewsRow :=
  sql_limit limit (order_by_created_at_desc (table db)).

(** [WHERE id = ? LIMIT 1] *)
Definition selectById (i : Z) (db : Db) : option TopicNewsRow :=
  find (fun r => id r =? i) (table db).

(** [listByTopic(topic, limit = 10)] *)
Definition listByTopic (t : string) (limit : option Z) (db : Db) : list TopicNewsRow :=
  selectByTopic t (match limit with Some l => l | None => 10 end) db.

(** [listAll(limit = 100)] *)
Definition listAll (limit : option Z) (db : Db) : list TopicNewsRow :=
  selectAll (match limit with Some l => l | None => 100 end) db.

Definition getById (i : Z) (db : Db) : option TopicNewsRow := selectById i db.

(** Vocabulary for the statements about the repository. *)

(** The largest rowid that ever existed, as [insert_run] computes it. *)
Definition high_water (db : Db) : Z :=
  Z.max (sqlite_sequence db) (max_rowid (table db)).

(** The rows that a batch appends when the high-water mark is [b] and the
    batch starts at position [i]. *)
Fixpoint appended (stamps : nat -> string) (i : nat) (b : Z)
  (rows : list TopicNewsInsert) : list TopicNewsRow :=
  match rows with
  | [] => []
  | row :: rest =>
      mkRow (b + 1) (new_topic row) (new_source row) (new_title row)
            (new_url row) (new_summary row) (stamps i)
      :: appended stamps (S i) (b + 1) rest
  end.

(** [a] was created no earlier than [b], by the text of [created_at]. *)
Definition not_older (a b : TopicNewsRow) : Prop :=
  String.leb (created_at b) (created_at a) = true.

(** The row that [insert_run] stores for [row] under [rowid] at [stamp]. *)
Definition stored (rowid : Z) (row : TopicNewsInsert) (stamp : string) : TopicNewsRow :=
  mkRow rowid (new_topic row) (new_source row) (new_title row)
        (new_url row) (new_summary row) stamp.

(** The shape of a table that only [insert_run] has written: the ids
    increase in table order, start above 0 and stay at or below the
    AUTOINCREMENT counter. *)
Definition db_ok (db : Db) : Prop :=
  StronglySorted Z.lt (map id (table db))
  /\ Forall (fun r => 0 < id r <= sqlite_sequence db) (table db).

(** The rows of a topic, in table order. *)
Definition rows_of_topic (t : string) (db : Db) : list TopicNewsRow :=
  filter (fun r => String.eqb (topic r) t) (table db).

(** A database for examples: two rows saved under one topic, a third under
    another, one second apart. *)
Definition example_stamps (i : nat) : string :=
  "2026-01-01 00:00:0" +++ Js.show_nat i.

Definition example_db : Db :=
  fst (saveMany example_stamps
         [mkInsert "AAPL" "example.com" "First" "https://example.com/1" "one";
          mkInsert "AAPL" "example.com" "Second" "https://example.com/2" "two";
          mkInsert "MSFT" "example.org" "Third" "https://example.org/3" "three"]
         empty_db).

End TopicNews.

(** ** The tool handlers of server.ts *)

Module Server.
Import Cache TopicNews.

(** What a tool handler gives back: the text of its single content block,
    or the error it throws. *)
Inductive ToolOutcome : Type :=
| Text (text : string)
| Throws (message : string).

(** The two stores of the server process. *)
Record State : Type := mkState {
  searchCache : SearchCache;
  topicNewsRepo : Db
}.

(** What the search service did with the request. *)
Inductive HttpOutcome : Type :=
| MissingApiKey
| RequestFailed (message : string)
| Response (ok : bool) (status : nat)
    (content : option string) (search_results : option (list SearchResult)).

(** [fetchLatestWebData], after the request has been answered. *)
Definition fetchLatestWebData (r : HttpOutcome) : string + (string * list SearchResult) :=
  match r with
  | MissingApiKey => inl "Missing PERPLEXITY_API_KEY"
  | RequestFailed m => inl m
  | Response ok status content search_results =>
      if ok then
        inr (Js.nullish content "No answer text returned.",
             match search_results with Some l => l | None => [] end)
      else inl ("Perplexity request failed with status " +++ Js.show_nat status)
  end.

Definition renderSource (s : SearchResult) (i : nat) : string :=
  let title := Js.nullish (sr_title s) "source" in
  let url := Js.nullish (sr_url s) "" in
  let date := Js.nullish (sr_date s) "" in
  Js.show_nat (i + 1) +++ ". " +++ title
    +++ (if Js.truthy date then " (" +++ date +++ ")" else "")
    +++ (if Js.truthy url then Js.nl +++ "   " +++ url else "").

Definition renderSources (sources : list SearchResult) : string :=
  Js.join Js.nl (Js.mapi renderSource (Js.take 5 sources)).

Definition renderDbRow (row : TopicNewsRow) (idx : nat) : string :=
  Js.show_nat (idx + 1) +++ ". [" +++ Js.show_Z (id row) +++ "] " +++ title row
    +++ Js.nl +++ "   topic: " +++ topic row
    +++ Js.nl +++ "   source: " +++ source row
    +++ Js.nl +++ "   url: " +++ url row
    +++ Js.nl +++ "   created_at: " +++ created_at row
    +++ Js.nl +++ "   summary: " +++ summary row.

Definition renderDbRows (rows : list TopicNewsRow) : string :=
  Js.join (Js.nl +++ Js.nl) (Js.mapi renderDbRow rows).

Definition toSummary (src : SearchResult) (fallback : string) : string :=
  let raw :=
    Js.trimmed_or (sr_snippet src) (Js.or_else (Js.trim fallback) "No summary available.") in
  Js.slice0 1500 raw.

(** The text of the cache miss of [save_to_db]. *)
Definition no_cached_search (result_id : string) : string :=
  "No cached search found for result_id '" +++ result_id +++ "'. Run search_web again.".

(** A stand-in for the platform's URL parser in the examples: it answers
    the text between ["://"] and the next ["/"], and like [new URL] it rejects
    a string that has no scheme. *)
Definition example_hostname (u : string) : option string :=
  match index 0 "://" u with
  | Some (S n) =>
      let rest := substring (S n + 3) (String.length u) u in
      match index 0 "/" rest with
      | Some m => Some (substring 0 m rest)
      | None => Some rest
      end
  | _ => None
  end.

Definition NOT_SAVED_NOTE : string :=
  "Not saved to SQL. If the user wants this stored, call save_to_db with this result_id.".

Section Handlers.

(** [new URL(url).hostname], or [None] when the constructor throws. *)
Variable url_hostname : string -> option string.

(** [topicNewsRepo.dbPath] *)
Variable dbPath : string.

Definition sourceFromUrl (u : string) : string :=
  match url_hostname u with
  | Some host => host
  | None => "unknown"
  end.

(** The loop of [saveNewsRows] that fills [rowsToSave]. *)
Fixpoint rowsToSave (topic answerText : string) (srcs : list SearchResult)
  : list TopicNewsInsert :=
  match srcs with
  | [] => []
  | src :: rest =>
      let title := Js.trimmed_or (sr_title src) "Untitled" in
      let url := match sr_url src with Some u => Js.trim u | None => "" end in
      if negb (Js.truthy url) then rowsToSave topic answerText rest
      else
        let host := sourceFromUrl url in
        let summary := toSummary src answerText in
        mkInsert topic host title url summary :: rowsToSave topic answerText rest
  end.

Definition saveNewsRows (stamps : nat -> string) (topic answerText : string)
  (srcs : list SearchResult) (db : Db) : Db * list Z :=
  saveMany stamps (rowsToSave topic answerText (Js.take 5 srcs)) db.

(** Vocabulary for the statements about [saveNewsRows]: a source that the
    loop skips, and the row that it derives from a source it does not skip. *)
Definition lacks_url (src : SearchResult) : bool :=
  match sr_url src with
  | Some u => negb (Js.truthy (Js.trim u))
  | None => true
  end.

Definition derived_row (topic answerText : string) (src : SearchResult) : TopicNewsInsert :=
  let url := Js.trim (Js.nullish (sr_url src) "") in
  mkInsert topic (sourceFromUrl url) (Js.trimmed_or (sr_title src) "Untitled") url
           (toSummary src answerText).

(** The [search_web] handler.  [resultId] is the value of [randomUUID()],
    [t_set] the [Date.now()] stored as [createdAt] and [t_cleanup] the
    [Date.now()] that [cleanupSearchCache()] reads. *)
Definition search_web (query : string) (http : HttpOutcome) (resultId : string)
  (t_set t_cleanup : Z) (st : State) : State * ToolOutcome :=
  match fetchLatestWebData http with
  | inl message => (st, Throws message)
  | inr (answerText, sources) =>
      let topSources := renderSources sources in
      let cache1 := Cache.set resultId (mkCached query answerText sources t_set)
                      (searchCache st) in
      let cache2 := cleanupSearchCache t_cleanup cache1 in
      let parts :=
        ["result_id: " +++ resultId; answerText]
        ++ (if Js.truthy topSources then ["Sources:" +++ Js.nl +++ topSources] else [])
        ++ [NOT_SAVED_NOTE] in
      (mkState cache2 (topicNewsRepo st), Text (Js.join (Js.nl +++ Js.nl) parts))
  end.

(** The first two statements of the [save_to_db] handler: the read of the
    cache, which runs the cleanup pass and then looks the handle up. *)
Definition read_cached (now : Z) (result_id : string) (c : SearchCache)
  : SearchCache * option CachedSearchResult :=
  let c' := cleanupSearchCache now c in
  (c', Cache.get result_id c').

Fixpoint non_null {A : Type} (l : list (option A)) : list A :=
  match l with
  | [] => []
  | Some x :: l' => x :: non_null l'
  | None :: l' => non_null l'
  end.

(** The [save_to_db] handler; [now] is the [Date.now()] of the cleanup. *)
Definition save_to_db (result_id : string) (topic : option string) (now : Z)
  (stamps : nat -> string) (st : State) : State * ToolOutcome :=
  let '(cache1, found) := read_cached now result_id (searchCache st) in
  match found with
  | None =>
      (mkState cache1 (topicNewsRepo st), Text (no_cached_search result_id))
  | Some cached =>
      let sqlTopic := Js.trimmed_or topic (query cached) in
      let '(db1, insertedIds) :=
        saveNewsRows stamps sqlTopic (answerText cached) (sources cached)
          (topicNewsRepo st) in
      let savedRows := non_null (map (fun i => getById i db1) insertedIds) in
      let savedRowsText :=
        if (0 <? List.length savedRows)%nat
        then Js.nl +++ Js.nl +++ "Saved rows:" +++ Js.nl +++ renderDbRows savedRows
        else "" in
      (mkState cache1 db1,
       Text ("Saved " +++ Js.show_nat (List.length insertedIds)
             +++ " row(s) to SQLite table 'topic_news' at " +++ dbPath +++ "." +++ Js.nl
             +++ "ids: " +++ Js.or_else (Js.join ", " (map Js.show_Z insertedIds)) "(none)"
             +++ savedRowsText))
  end.

(** The text of [save_to_db] after [ids] were inserted and [rows] read back. *)
Definition saved_text (ids : list Z) (rows : list TopicNewsRow) : string :=
  "Saved " +++ Js.show_nat (List.length ids)
  +++ " row(s) to SQLite table 'topic_news' at " +++ dbPath +++ "." +++ Js.nl
  +++ "ids: " +++ Js.or_else (Js.join ", " (map Js.show_Z ids)) "(none)"
  +++ (if (0 <? List.length rows)%nat
       then Js.nl +++ Js.nl +++ "Saved rows:" +++ Js.nl +++ renderDbRows rows
       else "").

End Handlers.

(** The [get_from_db] handler, on arguments that passed its input schema
    (an integer limit from 1 to 50, 10 when left out). *)
Definition get_from_db (topic : string) (limit : Z) (st : State) : ToolOutcome :=
  let rows := listByTopic topic (Some limit) (topicNewsRepo st) in
  if (List.length rows =? 0)%nat
  then Text ("No saved rows found for topic '" +++ topic +++ "'.")
  else Text (renderDbRows rows).

(** The [get_all_from_db] handler (an integer limit from 1 to 500, 100
    when left out). *)
Definition get_all_from_db (limit : Z) (st : State) : ToolOutcome :=
  let rows := listAll (Some limit) (topicNewsRepo st) in
  if (List.length rows =? 0)%nat
  then Text "No saved rows found in topic_news."
  else Text (renderDbRows rows).

(** The [get_by_id] handler (a positive integer id). *)
Definition get_by_id (i : Z) (st : State) : ToolOutcome :=
  match getById i (topicNewsRepo st) with
  | None => Text ("No row found with id=" +++ Js.show_Z i +++ ".")
  | Some row => Text (renderDbRows [row])
  end.

(** The invariant of the cache between two tool calls: the keys of a map
    are distinct, and every call ends with a cleanup. *)
Definition cache_ok (c : SearchCache) : Prop :=
  NoDup (keys c) /\ (size c <= SEARCH_CACHE_MAX_ITEMS)%nat.

(** A state for examples: one cached result under the handle ["h1"] with a
    source whose url parses, one whose url does not, and one without url. *)
Definition example_sources : list SearchResult :=
  [mkSearchResult (Some "Earnings") (Some "https://example.com/aapl") None (Some "Up.");
   mkSearchResult (Some "Rumour") (Some "not a url") None None;
   mkSearchResult (Some "No link") None None None].

Definition example_state : State :=
  mkState [("h1", mkCached "AAPL earnings" "Apple reported." example_sources 1000)]
          example_db.


(** A state whose cached result has no source with a url: one source
    without url, one with a blank url. *)
Definition linkless_state : State :=
  mkState [("h3", mkCached "q" "a" [mkSearchResult (Some "No link") None None None;
                                    mkSearchResult None (Some "   ") None None] 1000)]
          example_db.

End Server.

(** ** One streamed turn of the CLI *)

Module Cli.

(** An element of a content array, as far as [extractChunkText] looks:
    not an object (or falsy), an object whose [text] is a string, or an
    object without a string under [text]. *)
Inductive Block : Type :=
| NotAnObject
| TextBlock (text : string)
| OtherBlock.

(** [messageChunk?.content]: a string, an array of blocks, or anything
    else ([undefined] included). *)
Inductive Content : Type :=
| StringContent (s : string)
| ArrayContent (blocks : list Block)
| OtherContent.

(** An element of the stream: not an array, or the pair of a message chunk
    and its metadata, of which the turn reads [messageChunk?.content] and
    [metadata?.langgraph_node]. *)
Inductive Chunk : Type :=
| NotAnArray
| Pair (content : Content) (langgraph_node : option string).

Fixpoint blocksText (blocks : list Block) (text : string) : string :=
  match blocks with
  | [] => text
  | TextBlock t :: rest => blocksText rest (text +++ t)
  | _ :: rest => blocksText rest text
  end.

Definition extractChunkText (content : Content) : string :=
  match content with
  | StringContent s => s
  | ArrayContent blocks => blocksText blocks ""
  | OtherContent => ""
  end.

(** The state of the loop of [runTurn]: what has been written to standard
    output, one element per [process.stdout.write], and [streamed]. *)
Record TurnState : Type := mkTurn {
  stdout : list string;
  streamed : string
}.

Definition is_model_node (node : option string) : bool :=
  match node with
  | Some n => String.eqb n "model"
  | None => false
  end.

Definition step (st : TurnState) (chunk : Chunk) : TurnState :=
  match chunk with
  | NotAnArray => st
  | Pair content node =>
      if negb (is_model_node node) then st
      else
        let tokenText := extractChunkText content in
        if negb (Js.truthy tokenText) then st
        else mkTurn (stdout st ++ [tokenText]) (streamed st +++ tokenText)
  end.

Definition NO_TEXT_MARKER : string := "(no assistant text returned)" +++ Js.nl.

(** [runTurn] on the chunks the graph streams for the turn. *)
Definition runTurn (stream : list Chunk) : TurnState :=
  let st := fold_left step stream (mkTurn [] "") in
  mkTurn (stdout st ++ [if Js.truthy (streamed st) then Js.nl else NO_TEXT_MARKER])
         (streamed st).

(** Vocabulary for the statements about a turn: the chunks that come from
    the model node, the text fragment that such a chunk carries, if any, and
    the fragments of a stream in the order of arrival. *)
Definition from_model (chunk : Chunk) : bool :=
  match chunk with
  | NotAnArray => false
  | Pair _ node => is_model_node node
  end.

Definition fragment (chunk : Chunk) : list string :=
  match chunk with
  | NotAnArray => []
  | Pair content _ =>
      match extractChunkText content with
      | EmptyString => []
      | text => [text]
      end
  end.

Definition model_fragments (stream : list Chunk) : list string :=
  flat_map fragment (filter from_model stream).

Definition concat_all (l : list string) : string := fold_right String.append "" l.

(** What a turn is to surface, said from the data of the stream alone and
    without the functions of the turn: the text of a block is the string
    under [text], if any; the text of a content is the string itself, or the
    texts of the blocks of an array one after the other; the text of the
    model's own response in a chunk is the text of its content when the
    metadata of the chunk names the node "model". *)
Definition block_text (b : Block) : string :=
  match b with
  | TextBlock t => t
  | NotAnObject | OtherBlock => ""
  end.

Definition content_text (c : Content) : string :=
  match c with
  | StringContent s => s
  | ArrayContent blocks => concat_all (map block_text blocks)
  | OtherContent => ""
  end.

Definition response_text (chunk : Chunk) : string :=
  match chunk with
  | Pair content (Some node) => if String.eqb node "model" then content_text content else ""
  | Pair _ None | NotAnArray => ""
  end.

(** The texts of the model's response that are not empty, in the order
    of arrival. *)
Definition surfaced (stream : list Chunk) : list string :=
  filter Js.truthy (map response_text stream).

(** What reaches standard output: the writes, one after the other. *)
Definition output (st : TurnState) : string := concat_all (stdout st).

End Cli.

(** ** Start-up of the CLI: arguments, session id, required tools *)

Module Main.

(** [s.startsWith(p)] *)
Definition startsWith (p s : string) : bool := String.prefix p s.

(** [token.slice(2)] *)
Definition slice2 (token : string) : string :=
  substring 2 (String.length token - 2) token.

(** [Record<string, string>]: the own properties of a plain object, the
    latest assignment first. *)
Definition Values : Type := list (string * string).

(** [values[key] = v]: an assignment to ["__proto__"] reaches the setter of
    [Object.prototype], which ignores a string. *)
Definition assign (key v : string) (values : Values) : Values :=
  if String.eqb key "__proto__" then values else (key, v) :: values.

(** [values.key] for a key that [Object.prototype] does not define. *)
Fixpoint lookup (key : string) (values : Values) : option string :=
  match values with
  | [] => None
  | (k, v) :: rest => if String.eqb key k then Some v else lookup key rest
  end.

(** The loop of [parseArgs]: [argv] is what is left from index [i] on. *)
Fixpoint parseArgs_loop (argv : list string) (values : Values) : Values :=
  match argv with
  | [] => values
  | token :: rest =>
      if negb (startsWith "--" token) then parseArgs_loop rest values
      else
        let key := slice2 token in
        match rest with
        | next :: rest' =>
            if Js.truthy next && negb (startsWith "--" next)
            then parseArgs_loop rest' (assign key next values)
            else parseArgs_loop rest (assign key "true" values)
        | [] => assign key "true" values
        end
  end.

Definition parseArgs (argv : list string) : Values := parseArgs_loop argv [].

(** [getSessionId]; [now] is the reading of [Date.now()]. *)
Definition getSessionId (args : Values) (now : Z) : string :=
  match lookup "session" args with
  | Some s => if Js.truthy s then s else "session-" +++ Js.show_Z now
  | None => "session-" +++ Js.show_Z now
  end.

Definition REQUIRED_DB_TOOLS : list string :=
  ["search_web"; "save_to_db"; "get_from_db"; "get_all_from_db"; "get_by_id"].

(** The names of the tools the client offers: [tool?.name] when it is a
    string, which is [Some], and the empty string otherwise; [filter(Boolean)]
    drops the empty ones. *)
Definition toolNames (tools : list (option string)) : list string :=
  filter Js.truthy (map (fun t => match t with Some n => n | None => "" end) tools).

(** [REQUIRED_DB_TOOLS.filter((name) => !toolNames.has(name))] *)
Definition missingTools (tools : list (option string)) : list string :=
  filter (fun name => negb (existsb (String.eqb name) (toolNames tools)))
         REQUIRED_DB_TOOLS.

(** The guard of [createAgentRuntime]: the message of the error it throws
    when a required tool is missing. *)
Definition checkRequiredTools (tools : list (option string)) : option string :=
  match missingTools tools with
  | [] => None
  | missing =>
      Some ("Missing required MCP tools: " +++ Js.join ", " missing
            +++ ". Restart MCP server with: pnpm --filter @lc/mcp-server dev")
  end.


(** The text blocks of a content array, in order. *)
Definition block_texts (blocks : list Cli.Block) : list string :=
  flat_map (fun b => match b with Cli.TextBlock t => [t] | _ => [] end) blocks.

End Main.

(** * Facts about the search cache *)

Section CacheFacts.
Import Cache.

Lemma filter_twice {A : Type} (f g : A -> bool) (l : list A) :
  filter f (filter g l) = filter (fun x => g x && f x) l.
Proof.
  induction l as [|x l IH]; simpl; [reflexivity|].
  destruct (g x); simpl; [destruct (f x)|]; rewrite IH; reflexivity.
Qed.

Lemma key_in_spec ks e : key_in ks e = true <-> In (fst e) ks.
Proof.
  unfold key_in. rewrite existsb_exists. split.
  - intros [k [Hin Heq]]. apply String.eqb_eq in Heq. now subst.
  - intros Hin. exists (fst e). split; [assumption | apply String.eqb_refl].
Qed.

Lemma delete_all_filter victims c :
  delete_all victims c = filter (fun e => negb (key_in (keys victims) e)) c.
Proof.
  unfold delete_all. revert c.
  induction victims as [|v vs IH]; intros c; simpl.
  - symmetry. apply forallb_filter_id. now apply forallb_forall.
  - rewrite IH. unfold delete. rewrite filter_twice.
    apply filter_ext. intros e. unfold key_in. simpl.
    rewrite (String.eqb_sym (fst v) (fst e)).
    destruct (String.eqb (fst e) (fst v)); simpl; reflexivity.
Qed.

Lemma expire_fold now vs m :
  fold_left (fun m e => if expired now (snd e) then delete (fst e) m else m) vs m
  = filter (fun e => negb (existsb (fun v => expired now (snd v)
                                             && String.eqb (fst v) (fst e)) vs)) m.
Proof.
  revert m. induction vs as [|v vs IH]; intros m; simpl.
  - symmetry. apply forallb_filter_id. now apply forallb_forall.
  - rewrite IH. destruct (expired now (snd v)); simpl.
    + unfold delete. rewrite filter_twice. apply filter_ext. intros e.
      destruct (String.eqb (fst v) (fst e)); reflexivity.
    + reflexivity.
Qed.

Lemma same_key_same_entry (c : SearchCache) e v :
  NoDup (keys c) -> In e c -> In v c -> fst v = fst e -> v = e.
Proof.
  unfold keys. induction c as [|x c IH]; simpl; intros Hnd He Hv Hk; [contradiction|].
  inversion Hnd as [|? ? Hnotin Hnd']; subst.
  destruct He as [He|He], Hv as [Hv|Hv]; subst.
  - reflexivity.
  - exfalso. apply Hnotin. rewrite <- Hk. now apply in_map.
  - exfalso. apply Hnotin. rewrite Hk. now apply in_map.
  - now apply IH.
Qed.

(** With distinct keys the first loop keeps exactly the entries that are
    not too old, in their order. *)
Lemma expire_pass_filter now c :
  NoDup (keys c) ->
  expire_pass now c = filter (fun e => negb (expired now (snd e))) c.
Proof.
  intros Hnd. unfold expire_pass. rewrite expire_fold.
  apply filter_ext_in. intros e He. f_equal.
  destruct (expired now (snd e)) eqn:Hexp.
  - apply existsb_exists. exists e. split; [assumption|].
    rewrite Hexp, String.eqb_refl. reflexivity.
  - destruct (existsb _ c) eqn:Hex; [|reflexivity].
    apply existsb_exists in Hex. destruct Hex as [v [Hv Hb]].
    apply andb_true_iff in Hb. destruct Hb as [Hvexp Hk].
    apply String.eqb_eq in Hk.
    rewrite (same_key_same_entry c e v Hnd He Hv Hk) in Hvexp. congruence.
Qed.

Lemma insert_sorted_perm e l : Permutation (insert_sorted e l) (e :: l).
Proof.
  induction l as [|y l IH]; simpl; [apply Permutation_refl|].
  destruct (createdAt (snd e) <=? createdAt (snd y)).
  - apply Permutation_refl.
  - eapply perm_trans; [apply perm_skip, IH | apply perm_swap].
Qed.

Lemma sort_by_createdAt_perm l : Permutation (sort_by_createdAt l) l.
Proof.
  induction l as [|e l IH]; simpl; [constructor|].
  eapply perm_trans; [apply insert_sorted_perm | now apply perm_skip].
Qed.

Lemma insert_sorted_sorted e l :
  StronglySorted older_or_equal l -> StronglySorted older_or_equal (insert_sorted e l).
Proof.
  induction l as [|y l IH]; simpl; intros Hs.
  - constructor; constructor.
  - inversion Hs as [|? ? Hs' Hall]; subst.
    destruct (createdAt (snd e) <=? createdAt (snd y)) eqn:Hle.
    + apply Z.leb_le in Hle. constructor; [assumption|].
      constructor; [exact Hle|].
      eapply Forall_impl; [|exact Hall]. unfold older_or_equal. intros; lia.
    + apply Z.leb_gt in Hle. constructor; [now apply IH|].
      eapply Permutation_Forall; [apply Permutation_sym, insert_sorted_perm|].
      constructor; [unfold older_or_equal; lia | assumption].
Qed.

Lemma sort_by_createdAt_sorted l : StronglySorted older_or_equal (sort_by_createdAt l).
Proof.
  induction l as [|e l IH]; simpl; [constructor | now apply insert_sorted_sorted].
Qed.

(** In a sorted list everything among the first [k] is at most as recent
    as everything after them. *)
Lemma sorted_prefix_older k l :
  StronglySorted older_or_equal l ->
  forall r x, In r (firstn k l) -> In x (skipn k l) -> older_or_equal r x.
Proof.
  revert l. induction k as [|k IH]; intros l Hs r x Hr Hx; simpl in *.
  - contradiction.
  - destruct l as [|y l]; simpl in *; [contradiction|].
    inversion Hs as [|? ? Hs' Hall]; subst.
    destruct Hr as [Hr|Hr].
    + subst. rewrite Forall_forall in Hall. apply Hall.
      rewrite <- (firstn_skipn k l). apply in_or_app. now right.
    + eapply IH; eauto.
Qed.

Lemma filter_perm {A : Type} (f : A -> bool) (l l' : list A) :
  Permutation l l' -> Permutation (filter f l) (filter f l').
Proof.
  induction 1 as [|x l l' _ IH|x y l|l l' l'' _ IH1 _ IH2]; simpl.
  - constructor.
  - destruct (f x); [now apply perm_skip | assumption].
  - destruct (f x), (f y); try apply Permutation_refl. apply perm_swap.
  - eapply perm_trans; eassumption.
Qed.

Lemma NoDup_app_disjoint {A : Type} (l1 l2 : list A) (a : A) :
  NoDup (l1 ++ l2) -> In a l1 -> ~ In a l2.
Proof.
  induction l1 as [|x l1 IH]; simpl; intros Hnd Hin; [contradiction|].
  inversion Hnd as [|? ? Hnotin Hnd']; subst.
  destruct Hin as [->|Hin]; [|now apply IH].
  intros Hin2. apply Hnotin. apply in_or_app. now right.
Qed.

(** Deleting the ids of one part of a map with distinct keys leaves the
    other part. *)
Lemma delete_part (c removed kept : SearchCache) :
  NoDup (keys c) -> Permutation c (removed ++ kept) ->
  Permutation (filter (fun e => negb (key_in (keys removed) e)) c) kept.
Proof.
  intros Hnd Hperm.
  assert (Hnd' : NoDup (keys removed ++ keys kept)).
  { unfold keys in *. rewrite <- map_app.
    eapply Permutation_NoDup; [apply Permutation_map, Hperm | exact Hnd]. }
  eapply perm_trans; [apply filter_perm, Hperm|].
  rewrite filter_app.
  replace (filter _ removed) with (@nil (string * CachedSearchResult)).
  - simpl. rewrite forallb_filter_id; [apply Permutation_refl|].
    apply forallb_forall. intros e He.
    destruct (key_in (keys removed) e) eqn:Hk; [|reflexivity].
    apply key_in_spec in Hk. exfalso.
    apply (NoDup_app_disjoint _ _ _ Hnd' Hk). unfold keys. now apply in_map.
  - symmetry. induction removed as [|r rs IH']; [reflexivity|].
    assert (Hall : forall e, In e (r :: rs) ->
                     negb (key_in (keys (r :: rs)) e) = false).
    { intros e He. apply negb_false_iff, key_in_spec. unfold keys. now apply in_map. }
    clear - Hall. revert Hall. generalize (keys (r :: rs)) as ks.
    generalize (r :: rs) as l. induction l as [|x l IHl]; intros ks Hall; simpl.
    + reflexivity.
    + rewrite (Hall x (or_introl eq_refl)). apply IHl.
      intros e He. apply Hall. now right.
Qed.

Lemma get_none_iff id (c : SearchCache) : Cache.get id c = None <-> ~ In id (keys c).
Proof.
  induction c as [|[k v] c IH]; simpl.
  - tauto.
  - destruct (String.eqb id k) eqn:Hk.
    + apply String.eqb_eq in Hk. subst. split; [discriminate | tauto].
    + apply String.eqb_neq in Hk. rewrite IH. intuition congruence.
Qed.

Lemma get_some_in id v (c : SearchCache) : Cache.get id c = Some v -> In (id, v) c.
Proof.
  induction c as [|[k w] c IH]; simpl; [discriminate|].
  destruct (String.eqb id k) eqn:Hk.
  - apply String.eqb_eq in Hk. intros [= ->]. subst. now left.
  - intros H. right. now apply IH.
Qed.

Lemma in_get_some id v (c : SearchCache) :
  NoDup (keys c) -> In (id, v) c -> Cache.get id c = Some v.
Proof.
  induction c as [|[k w] c IH]; simpl; intros Hnd Hin; [contradiction|].
  inversion Hnd as [|? ? Hnotin Hnd']; subst.
  destruct Hin as [Heq|Hin].
  - injection Heq as -> ->. now rewrite String.eqb_refl.
  - destruct (String.eqb id k) eqn:Hk; [|now apply IH].
    apply String.eqb_eq in Hk. subst. exfalso. apply Hnotin.
    change k with (fst (k, v)). now apply in_map.
Qed.

Lemma keys_filter_NoDup f (c : SearchCache) : NoDup (keys c) -> NoDup (keys (filter f c)).
Proof.
  unfold keys. induction c as [|e c IH]; simpl; intros Hnd; [constructor|].
  inversion Hnd as [|? ? Hnotin Hnd']; subst.
  destruct (f e); simpl; [|now apply IH].
  constructor; [|now apply IH].
  intros Hin. apply Hnotin. apply in_map_iff in Hin.
  destruct Hin as [x [Hx Hin]]. apply filter_In in Hin.
  rewrite <- Hx. apply in_map. tauto.
Qed.

(** The shape of a cleanup on a map with distinct keys: the survivors of
    the age pass, minus the first [size - capacity] of them in order of
    creation. *)
Lemma cleanup_shape now (c : SearchCache) :
  NoDup (keys c) ->
  let trimmed :=
    firstn (size (survivors now c) - SEARCH_CACHE_MAX_ITEMS)
           (sort_by_createdAt (survivors now c)) in
  cleanupSearchCache now c
  = filter (fun e => negb (key_in (keys trimmed) e)) (survivors now c).
Proof.
  intros Hnd trimmed. unfold cleanupSearchCache.
  rewrite (expire_pass_filter now c Hnd). fold (survivors now c).
  destruct (size (survivors now c) <=? SEARCH_CACHE_MAX_ITEMS)%nat eqn:Hle.
  - apply Nat.leb_le in Hle. unfold trimmed.
    replace (size (survivors now c) - SEARCH_CACHE_MAX_ITEMS)%nat with 0%nat by lia.
    simpl. symmetry. apply forallb_filter_id. now apply forallb_forall.
  - unfold Js.take. fold trimmed. apply delete_all_filter.
Qed.

Lemma cleanup_kept_perm now (c : SearchCache) :
  NoDup (keys c) ->
  Permutation (cleanupSearchCache now c)
    (skipn (size (survivors now c) - SEARCH_CACHE_MAX_ITEMS)
           (sort_by_createdAt (survivors now c))).
Proof.
  intros Hnd. rewrite (cleanup_shape now c Hnd).
  apply delete_part; [apply keys_filter_NoDup; exact Hnd|].
  rewrite firstn_skipn. apply Permutation_sym, sort_by_createdAt_perm.
Qed.

Lemma cleanup_size_le now (c : SearchCache) :
  NoDup (keys c) -> (size (cleanupSearchCache now c) <= SEARCH_CACHE_MAX_ITEMS)%nat.
Proof.
  intros Hnd. unfold size at 1.
  rewrite (Permutation_length (cleanup_kept_perm now c Hnd)), length_skipn.
  rewrite (Permutation_length (sort_by_createdAt_perm _)). unfold size. lia.
Qed.

Lemma cleanup_NoDup now (c : SearchCache) :
  NoDup (keys c) -> NoDup (keys (cleanupSearchCache now c)).
Proof.
  intros Hnd. rewrite (cleanup_shape now c Hnd).
  apply keys_filter_NoDup, keys_filter_NoDup, Hnd.
Qed.

(** An entry that is fresh enough and whose key is not among the trimmed
    ones is found after the cleanup. *)
Lemma cleanup_keeps now (c : SearchCache) id v :
  NoDup (keys c) -> In (id, v) c -> expired now v = false ->
  ~ In id (keys (firstn (size (survivors now c) - SEARCH_CACHE_MAX_ITEMS)
                        (sort_by_createdAt (survivors now c)))) ->
  Cache.get id (cleanupSearchCache now c) = Some v.
Proof.
  intros Hnd Hin Hfresh Hnot.
  apply in_get_some; [now apply cleanup_NoDup|].
  rewrite (cleanup_shape now c Hnd). apply filter_In. split.
  - apply filter_In. split; [exact Hin|]. simpl. now rewrite Hfresh.
  - apply negb_true_iff. destruct (key_in _ (id, v)) eqn:Hk; [|reflexivity].
    apply key_in_spec in Hk. contradiction.
Qed.






(** On a map that is within capacity a cleanup only expires. *)
Lemma cleanup_keeps_within_capacity now (c : SearchCache) id v :
  NoDup (keys c) -> (size c <= SEARCH_CACHE_MAX_ITEMS)%nat ->
  Cache.get id c = Some v -> expired now v = false ->
  Cache.get id (cleanupSearchCache now c) = Some v.
Proof.
  intros Hnd Hsize Hget Hfresh.
  apply cleanup_keeps; [exact Hnd | now apply get_some_in | exact Hfresh |].
  assert (Hle : (size (survivors now c) <= size c)%nat) by apply filter_length_le.
  replace (_ - _)%nat with 0%nat by lia. simpl. tauto.
Qed.

(** The cleanup on 202 numbered entries, one millisecond after the oldest
    reached the age limit: entry 0 goes by age, entry 1 by capacity. *)
Example cleanup_202 :
  keys (cleanupSearchCache (SEARCH_CACHE_TTL_MS + 1) (numbered_cache 202))
  = map Js.show_nat (seq 2 200).
Proof. vm_compute. reflexivity. Qed.

(** C2.  On a map with distinct keys, [cleanupSearchCache now] first drops
    every entry older than the TTL (a later [get] of its handle finds
    nothing); what it then trims from the survivors is [trimmed]: exactly
    [size survivors - 200] entries (none when the survivors fit), each created
    no later than every entry that stays; the entries that stay keep their
    order, and they are at most 200. *)
Theorem cleanup_expires_then_trims_oldest (now : Z) (c : SearchCache) :
  NoDup (keys c) ->
  let c' := cleanupSearchCache now c in
  exists trimmed : SearchCache,
    (forall e, In e c -> now - createdAt (snd e) > SEARCH_CACHE_TTL_MS ->
               Cache.get (fst e) c' = None)
    /\ Permutation (survivors now c) (trimmed ++ c')
    /\ List.length trimmed = (size (survivors now c) - SEARCH_CACHE_MAX_ITEMS)%nat
    /\ c' = filter (fun e => negb (key_in (keys trimmed) e)) (survivors now c)
    /\ (forall r x, In r trimmed -> In x c' -> createdAt (snd r) <= createdAt (snd x))
    /\ (size c' <= SEARCH_CACHE_MAX_ITEMS)%nat.
Proof.
  intros Hnd c'.
  set (k := (size (survivors now c) - SEARCH_CACHE_MAX_ITEMS)%nat).
  set (sorted := sort_by_createdAt (survivors now c)).
  exists (firstn k sorted).
  assert (Hshape : c' = filter (fun e => negb (key_in (keys (firstn k sorted)) e))
                          (survivors now c)).
  { apply cleanup_shape. exact Hnd. }
  assert (Hsplit : Permutation (survivors now c) (firstn k sorted ++ skipn k sorted)).
  { rewrite firstn_skipn. apply Permutation_sym, sort_by_createdAt_perm. }
  assert (Hkept : Permutation c' (skipn k sorted)).
  { rewrite Hshape. apply delete_part; [|exact Hsplit].
    apply keys_filter_NoDup. exact Hnd. }
  assert (Hlen : List.length sorted = size (survivors now c)).
  { apply Permutation_length, sort_by_createdAt_perm. }
  repeat split.
  - intros e He Hold. apply get_none_iff. intros Hin.
    unfold keys in Hin. apply in_map_iff in Hin. destruct Hin as [x [Hx Hin]].
    rewrite Hshape in Hin. apply filter_In in Hin. destruct Hin as [Hin _].
    apply filter_In in Hin. destruct Hin as [Hxc Hfresh].
    rewrite (same_key_same_entry c e x Hnd He Hxc Hx) in Hfresh.
    unfold expired in Hfresh. apply negb_true_iff in Hfresh.
    rewrite Z.gtb_ltb in Hfresh. apply Z.ltb_ge in Hfresh. lia.
  - eapply perm_trans; [exact Hsplit|].
    apply Permutation_app_head, Permutation_sym, Hkept.
  - rewrite length_firstn, Hlen. unfold k. lia.
  - exact Hshape.
  - intros r x Hr Hx.
    apply (sorted_prefix_older k sorted (sort_by_createdAt_sorted _) r x Hr).
    eapply Permutation_in; [exact Hkept | exact Hx].
  - unfold size at 1. rewrite (Permutation_length Hkept), length_skipn, Hlen.
    unfold k. lia.
Qed.

Lemma cleanup_expires_then_trims_oldest_witness :
  exists trimmed : SearchCache,
    (forall e, In e (numbered_cache 3) ->
               SEARCH_CACHE_TTL_MS + 1 - createdAt (snd e) > SEARCH_CACHE_TTL_MS ->
               Cache.get (fst e)
                 (cleanupSearchCache (SEARCH_CACHE_TTL_MS + 1) (numbered_cache 3)) = None)
    /\ Permutation (survivors (SEARCH_CACHE_TTL_MS + 1) (numbered_cache 3))
         (trimmed ++ cleanupSearchCache (SEARCH_CACHE_TTL_MS + 1) (numbered_cache 3))
    /\ List.length trimmed
       = (size (survivors (SEARCH_CACHE_TTL_MS + 1) (numbered_cache 3))
          - SEARCH_CACHE_MAX_ITEMS)%nat
    /\ cleanupSearchCache (SEARCH_CACHE_TTL_MS + 1) (numbered_cache 3)
       = filter (fun e => negb (key_in (keys trimmed) e))
           (survivors (SEARCH_CACHE_TTL_MS + 1) (numbered_cache 3))
    /\ (forall r x, In r trimmed ->
          In x (cleanupSearchCache (SEARCH_CACHE_TTL_MS + 1) (numbered_cache 3)) ->
          createdAt (snd r) <= createdAt (snd x))
    /\ (size (cleanupSearchCache (SEARCH_CACHE_TTL_MS + 1) (numbered_cache 3))
        <= SEARCH_CACHE_MAX_ITEMS)%nat.
Proof.
  apply (cleanup_expires_then_trims_oldest (SEARCH_CACHE_TTL_MS + 1) (numbered_cache 3)).
  vm_compute. repeat constructor; simpl; intuition discriminate.
Defined.

End CacheFacts.

(** * Facts about the handlers that read the cache *)

Section ReadFacts.
Import Cache TopicNews Server.

Variable url_hostname : string -> option string.
Variable dbPath : string.

Lemma expire_pass_incl now (c : SearchCache) e : In e (expire_pass now c) -> In e c.
Proof.
  unfold expire_pass. rewrite expire_fold. intros H. now apply filter_In in H.
Qed.

Lemma cleanup_incl now (c : SearchCache) e : In e (cleanupSearchCache now c) -> In e c.
Proof.
  unfold cleanupSearchCache. intros H. apply (expire_pass_incl now).
  destruct (size (expire_pass now c) <=? SEARCH_CACHE_MAX_ITEMS)%nat; [exact H|].
  rewrite delete_all_filter in H. now apply filter_In in H.
Qed.

Lemma cleanup_keeps_absent now (c : SearchCache) id :
  Cache.get id c = None -> Cache.get id (cleanupSearchCache now c) = None.
Proof.
  rewrite !get_none_iff. intros Hnot Hin. apply Hnot.
  unfold keys in *. apply in_map_iff in Hin. destruct Hin as [e [He Hin]].
  rewrite <- He. apply in_map. now apply (cleanup_incl now).
Qed.

(** An entry that is too old takes its key out of the map in the first
    loop, whatever else the map holds. *)
Lemma expire_pass_drops now (c : SearchCache) id v :
  In (id, v) c -> expired now v = true -> ~ In id (keys (expire_pass now c)).
Proof.
  intros Hin Hexp Hk. unfold expire_pass in Hk. rewrite expire_fold in Hk.
  unfold keys in Hk. apply in_map_iff in Hk. destruct Hk as [e [He Hf]].
  apply filter_In in Hf. destruct Hf as [_ Hf].
  apply negb_true_iff in Hf.
  assert (Hex : existsb (fun w => expired now (snd w) && String.eqb (fst w) (fst e)) c = true).
  { apply existsb_exists. exists (id, v). split; [exact Hin|]. simpl.
    rewrite Hexp, He, String.eqb_refl. reflexivity. }
  congruence.
Qed.

Lemma cleanup_drops now (c : SearchCache) id v :
  In (id, v) c -> expired now v = true -> Cache.get id (cleanupSearchCache now c) = None.
Proof.
  intros Hin Hexp. apply get_none_iff. intros Hk.
  apply (expire_pass_drops now c id v Hin Hexp).
  unfold cleanupSearchCache in Hk.
  destruct (size (expire_pass now c) <=? SEARCH_CACHE_MAX_ITEMS)%nat; [exact Hk|].
  rewrite delete_all_filter in Hk. unfold keys in *.
  apply in_map_iff in Hk. destruct Hk as [e [He Hf]]. apply filter_In in Hf.
  rewrite <- He. apply in_map. tauto.
Qed.

Lemma save_to_db_miss result_id topic now stamps st :
  Cache.get result_id (cleanupSearchCache now (searchCache st)) = None ->
  save_to_db url_hostname dbPath result_id topic now stamps st
  = (mkState (cleanupSearchCache now (searchCache st)) (topicNewsRepo st),
     Text (no_cached_search result_id)).
Proof.
  intros Hmiss. unfold save_to_db, read_cached. rewrite Hmiss. reflexivity.
Qed.

(** C1.  When the handle is not in the cache as [save_to_db] is invoked,
    the handler returns (it does not throw) the message that tells the
    caller to run the search again, and the repository is the one it
    started from: no row is inserted. *)
Theorem save_unknown_handle_inserts_nothing
  (result_id : string) (topic : option string) (now : Z)
  (stamps : nat -> string) (st : State) :
  Cache.get result_id (searchCache st) = None ->
  snd (save_to_db url_hostname dbPath result_id topic now stamps st)
  = Text ("No cached search found for result_id '" +++ result_id
          +++ "'. Run search_web again.")
  /\ topicNewsRepo (fst (save_to_db url_hostname dbPath result_id topic now stamps st))
     = topicNewsRepo st
  /\ table (topicNewsRepo (fst (save_to_db url_hostname dbPath result_id topic now stamps st)))
     = table (topicNewsRepo st).
Proof.
  intros Habsent.
  rewrite save_to_db_miss by (apply cleanup_keeps_absent; exact Habsent).
  simpl. auto.
Qed.

(** C3.  A read of the cache at time [now], as [save_to_db] performs it,
    treats an entry older than the TTL as absent although the map still
    holds it when the read starts, and the map that the read leaves no longer
    holds it; the cleanup pass on its own drops it as well, and the handler
    answers as for an unknown handle without touching the repository. *)
Theorem read_treats_stale_as_absent
  (result_id : string) (v : CachedSearchResult) (now : Z) (c : SearchCache) :
  Cache.get result_id c = Some v ->
  now - createdAt v > SEARCH_CACHE_TTL_MS ->
  snd (read_cached now result_id c) = None
  /\ Cache.get result_id (fst (read_cached now result_id c)) = None
  /\ Cache.get result_id (cleanupSearchCache now c) = None
  /\ forall topic stamps db,
       save_to_db url_hostname dbPath result_id topic now stamps (mkState c db)
       = (mkState (cleanupSearchCache now c) db,
          Text ("No cached search found for result_id '" +++ result_id
                +++ "'. Run search_web again.")).
Proof.
  intros Hget Hold.
  assert (Hdrop : Cache.get result_id (cleanupSearchCache now c) = None).
  { apply (cleanup_drops now c result_id v).
    - now apply get_some_in.
    - unfold expired. apply Z.gtb_lt. lia. }
  unfold read_cached. simpl. repeat split; try exact Hdrop.
  intros topic stamps db. now apply save_to_db_miss.
Qed.

End ReadFacts.

(** * Facts about the repository *)

Section RepositoryFacts.
Import TopicNews.

Lemma max_rowid_nonneg t : 0 <= max_rowid t.
Proof. induction t as [|r t IH]; simpl; lia. Qed.

Lemma max_rowid_app t1 t2 : max_rowid (t1 ++ t2) = Z.max (max_rowid t1) (max_rowid t2).
Proof.
  induction t1 as [|r t1 IH]; simpl.
  - pose proof (max_rowid_nonneg t2). lia.
  - rewrite IH. lia.
Qed.

Lemma max_rowid_bound t r : In r t -> id r <= max_rowid t.
Proof.
  induction t as [|x t IH]; simpl; [contradiction|].
  intros [->|Hin]; [lia|]. apply IH in Hin. lia.
Qed.

Lemma high_water_insert stamp row db :
  high_water (fst (insert_run stamp row db)) = high_water db + 1.
Proof.
  unfold high_water, insert_run. simpl. rewrite max_rowid_app. simpl.
  pose proof (max_rowid_nonneg (table db)). lia.
Qed.

Lemma saveMany_loop_spec stamps rows : forall i db acc,
  table (fst (saveMany_loop stamps i rows db acc))
  = table db ++ appended stamps i (high_water db) rows
  /\ snd (saveMany_loop stamps i rows db acc)
     = acc ++ map id (appended stamps i (high_water db) rows)
  /\ high_water (fst (saveMany_loop stamps i rows db acc))
     = high_water db + Z.of_nat (List.length rows).
Proof.
  induction rows as [|row rest IH]; intros i db acc; simpl.
  - rewrite !app_nil_r. repeat split. lia.
  - destruct (IH (S i) (fst (insert_run (stamps i) row db))
                 (acc ++ [snd (insert_run (stamps i) row db)])) as [Ht [Hids Hw]].
    rewrite high_water_insert in Ht, Hids, Hw.
    unfold insert_run in *. simpl in *. fold (high_water db) in *.
    rewrite Ht, Hids, Hw. rewrite <- !app_assoc. simpl. repeat split. lia.
Qed.

Lemma appended_length stamps rows : forall i b,
  List.length (appended stamps i b rows) = List.length rows.
Proof. induction rows as [|r rest IH]; intros i b; simpl; [|rewrite IH]; reflexivity. Qed.

Lemma appended_nth stamps rows : forall i b j row,
  nth_error rows j = Some row ->
  nth_error (appended stamps i b rows) j
  = Some (mkRow (b + 1 + Z.of_nat j) (new_topic row) (new_source row) (new_title row)
            (new_url row) (new_summary row) (stamps (i + j)%nat)).
Proof.
  induction rows as [|r rest IH]; intros i b j row Hj.
  - destruct j; discriminate.
  - destruct j as [|j]; cbn [nth_error appended] in *.
    + injection Hj as ->. rewrite Z.add_0_r, Nat.add_0_r. reflexivity.
    + rewrite (IH (S i) (b + 1) j row Hj).
      replace (b + 1 + Z.of_nat (S j)) with (b + 1 + 1 + Z.of_nat j) by lia.
      replace (i + S j)%nat with (S i + j)%nat by lia. reflexivity.
Qed.

Lemma appended_ids_above stamps rows : forall i b r,
  In r (appended stamps i b rows) -> b < id r.
Proof.
  induction rows as [|row rest IH]; intros i b r; simpl; [contradiction|].
  intros [<-|Hin]; simpl; [lia|]. apply IH in Hin. lia.
Qed.

Lemma appended_ids_increasing stamps rows : forall i b,
  StronglySorted Z.lt (map id (appended stamps i b rows)).
Proof.
  induction rows as [|row rest IH]; intros i b; simpl; constructor.
  - apply IH.
  - apply Forall_forall. intros x Hx. apply in_map_iff in Hx.
    destruct Hx as [r [<- Hr]]. apply appended_ids_above in Hr. lia.
Qed.

Lemma increasing_NoDup (l : list Z) : StronglySorted Z.lt l -> NoDup l.
Proof.
  induction 1 as [|x l Hs IH Hall]; constructor; [|exact IH].
  intros Hin. rewrite Forall_forall in Hall. apply Hall in Hin. lia.
Qed.

(** [find] by id in a list whose ids increase reaches the row at its place. *)
Lemma find_by_id_nth (l : list TopicNewsRow) : forall j r,
  StronglySorted Z.lt (map id l) -> nth_error l j = Some r ->
  find (fun x => id x =? id r) l = Some r.
Proof.
  induction l as [|x l IH]; intros j r Hs Hj.
  - destruct j; discriminate.
  - simpl in Hs. inversion Hs as [|? ? Hs' Hall]; subst.
    destruct j as [|j]; simpl in *.
    + injection Hj as ->. now rewrite Z.eqb_refl.
    + assert (Hlt : id x < id r).
      { rewrite Forall_forall in Hall. apply Hall. apply in_map.
        eapply nth_error_In; eassumption. }
      destruct (id x =? id r) eqn:Heq; [apply Z.eqb_eq in Heq; lia|].
      eapply IH; eassumption.
Qed.

Lemma find_app_skip {A : Type} (f : A -> bool) (l1 l2 : list A) :
  (forall x, In x l1 -> f x = false) -> find f (l1 ++ l2) = find f l2.
Proof.
  induction l1 as [|x l1 IH]; simpl; intros H; [reflexivity|].
  rewrite (H x (or_introl eq_refl)). apply IH. intros y Hy. apply H. now right.
Qed.

(** C5.  [saveMany] on [N] rows returns [N] ids; they increase strictly
    in the order of the batch, so they are distinct; each is above every id
    the table held and above the AUTOINCREMENT counter; and [getById] on the
    id returned for the row at position [j] gives that row with the creation
    stamp it received. *)
Theorem saveMany_ids_increasing_and_retrievable
  (stamps : nat -> string) (rows : list TopicNewsInsert) (db : Db) :
  let db' := fst (saveMany stamps rows db) in
  let ids := snd (saveMany stamps rows db) in
  List.length ids = List.length rows
  /\ StronglySorted Z.lt ids
  /\ NoDup ids
  /\ Forall (fun i => sqlite_sequence db < i
                      /\ forall old, In old (table db) -> id old < i) ids
  /\ (forall j row, nth_error rows j = Some row ->
        exists rowid, nth_error ids j = Some rowid
                      /\ getById rowid db' = Some (stored rowid row (stamps j)))
  /\ (forall i, In i ids -> exists r, getById i db' = Some r /\ id r = i).
Proof.
  intros db' ids.
  destruct (saveMany_loop_spec stamps rows 0%nat db []) as [Ht [Hids _]].
  fold (saveMany stamps rows db) in Ht, Hids. fold db' in Ht. fold ids in Hids.
  simpl in Hids.
  set (new := appended stamps 0 (high_water db) rows) in *.
  assert (Hsorted : StronglySorted Z.lt ids).
  { rewrite Hids. apply appended_ids_increasing. }
  assert (Hfresh : forall r old, In r new -> In old (table db) -> id old < id r).
  { intros r old Hr Hold. apply appended_ids_above in Hr.
    apply max_rowid_bound in Hold. unfold high_water in Hr. lia. }
  assert (Hget : forall j r, nth_error new j = Some r -> getById (id r) db' = Some r).
  { intros j r Hj. unfold getById, selectById. rewrite Ht.
    rewrite find_app_skip.
    - apply (find_by_id_nth new j r); [|exact Hj].
      apply appended_ids_increasing.
    - intros old Hold. apply Z.eqb_neq.
      pose proof (Hfresh r old (nth_error_In _ _ Hj) Hold). lia. }
  split; [|split; [|split; [|split; [|split]]]].
  - rewrite Hids, length_map. apply appended_length.
  - exact Hsorted.
  - apply increasing_NoDup. exact Hsorted.
  - rewrite Hids. apply Forall_forall. intros i Hi.
    apply in_map_iff in Hi. destruct Hi as [r [<- Hr]]. split.
    + apply appended_ids_above in Hr. unfold high_water in Hr. lia.
    + intros old Hold. now apply Hfresh.
  - intros j row Hj.
    pose proof (appended_nth stamps rows 0%nat (high_water db) j row Hj) as Hn.
    fold new in Hn. simpl in Hn.
    exists (high_water db + 1 + Z.of_nat j). split.
    + rewrite Hids. rewrite nth_error_map, Hn. reflexivity.
    + apply (Hget j _ Hn).
  - intros i Hi. rewrite Hids in Hi. apply in_map_iff in Hi.
    destruct Hi as [r [<- Hr]]. apply In_nth_error in Hr. destruct Hr as [j Hj].
    exists r. split; [apply (Hget j r Hj) | reflexivity].
Qed.

Example saveMany_example :
  snd (saveMany example_stamps
         [mkInsert "AAPL" "example.com" "Fourth" "https://example.com/4" "four";
          mkInsert "AAPL" "example.com" "Fifth" "https://example.com/5" "five"]
         example_db) = [4; 5]
  /\ map id (table example_db) = [1; 2; 3].
Proof. vm_compute. split; reflexivity. Qed.

Lemma string_leb_trans (a b c : string) :
  String.leb a b = true -> String.leb b c = true -> String.leb a c = true.
Proof.
  unfold String.leb. revert b c.
  induction a as [|x a IH]; intros [|y b] [|z c]; simpl; try easy.
  unfold Ascii.compare.
  destruct (N.compare_spec (N_of_ascii x) (N_of_ascii y)) as [Hxy|Hxy|Hxy];
    destruct (N.compare_spec (N_of_ascii y) (N_of_ascii z)) as [Hyz|Hyz|Hyz];
    destruct (N.compare_spec (N_of_ascii x) (N_of_ascii z)) as [Hxz|Hxz|Hxz];
    try lia; try easy.
  apply IH.
Qed.

Lemma insert_desc_perm r l : Permutation (insert_desc r l) (r :: l).
Proof.
  induction l as [|y l IH]; simpl; [apply Permutation_refl|].
  destruct (String.leb (created_at y) (created_at r)).
  - apply Permutation_refl.
  - eapply perm_trans; [apply perm_skip, IH | apply perm_swap].
Qed.

Lemma order_by_created_at_desc_perm l : Permutation (order_by_created_at_desc l) l.
Proof.
  induction l as [|r l IH]; simpl; [constructor|].
  eapply perm_trans; [apply insert_desc_perm | now apply perm_skip].
Qed.

Lemma insert_desc_sorted r l :
  StronglySorted not_older l -> StronglySorted not_older (insert_desc r l).
Proof.
  induction l as [|y l IH]; simpl; intros Hs.
  - constructor; constructor.
  - inversion Hs as [|? ? Hs' Hall]; subst.
    destruct (String.leb (created_at y) (created_at r)) eqn:Hle.
    + constructor; [assumption|]. constructor; [exact Hle|].
      eapply Forall_impl; [|exact Hall]. unfold not_older. intros x Hx.
      eapply string_leb_trans; eassumption.
    + constructor; [now apply IH|].
      eapply Permutation_Forall; [apply Permutation_sym, insert_desc_perm|].
      constructor; [|assumption]. unfold not_older.
      destruct (String.leb_total (created_at y) (created_at r)); congruence.
Qed.

Lemma order_by_created_at_desc_sorted l :
  StronglySorted not_older (order_by_created_at_desc l).
Proof.
  induction l as [|r l IH]; simpl; [constructor | now apply insert_desc_sorted].
Qed.

Lemma firstn_sorted {A : Type} (R : A -> A -> Prop) n (l : list A) :
  StronglySorted R l -> StronglySorted R (firstn n l).
Proof.
  revert l. induction n as [|n IH]; intros l Hs; simpl; [constructor|].
  destruct l as [|x l]; [constructor|].
  inversion Hs as [|? ? Hs' Hall]; subst. constructor; [now apply IH|].
  rewrite Forall_forall in *. intros y Hy. apply Hall.
  rewrite <- (firstn_skipn n l). apply in_or_app. now left.
Qed.

Lemma sql_limit_incl {A : Type} limit (l : list A) x : In x (sql_limit limit l) -> In x l.
Proof.
  unfold sql_limit. destruct (limit <? 0); [trivial|].
  intros H. rewrite <- (firstn_skipn (Z.to_nat limit) l). apply in_or_app. now left.
Qed.

(** C7, as the code has it.  For a limit that is not negative,
    [listByTopic] returns at most [limit] rows, all of them rows of the
    table with exactly the queried topic, each created no earlier than the
    rows after it; without a limit argument the bound is 10. *)
Theorem listByTopic_bounded_matching_newest_first (t : string) (limit : Z) (db : Db) :
  0 <= limit ->
  let rows := listByTopic t (Some limit) db in
  Z.of_nat (List.length rows) <= limit
  /\ (forall r, In r rows -> topic r = t /\ In r (table db))
  /\ StronglySorted not_older rows
  /\ listByTopic t None db = listByTopic t (Some 10) db.
Proof.
  intros Hlimit rows. unfold rows, listByTopic, selectByTopic.
  split; [|split; [|split]].
  - unfold sql_limit. destruct (limit <? 0) eqn:Hneg; [apply Z.ltb_lt in Hneg; lia|].
    pose proof (firstn_le_length (Z.to_nat limit)
      (order_by_created_at_desc (filter (fun r => String.eqb (topic r) t) (table db)))).
    lia.
  - intros r Hr. apply sql_limit_incl in Hr.
    apply (Permutation_in _ (order_by_created_at_desc_perm _)) in Hr.
    apply filter_In in Hr. destruct Hr as [Hin Heq].
    apply String.eqb_eq in Heq. auto.
  - unfold sql_limit. destruct (limit <? 0).
    + apply order_by_created_at_desc_sorted.
    + apply firstn_sorted, order_by_created_at_desc_sorted.
  - reflexivity.
Qed.

Lemma listByTopic_bounded_matching_newest_first_witness :
  Z.of_nat (List.length (listByTopic "AAPL" (Some 1) example_db)) <= 1
  /\ (forall r, In r (listByTopic "AAPL" (Some 1) example_db) ->
        topic r = "AAPL" /\ In r (table example_db))
  /\ StronglySorted not_older (listByTopic "AAPL" (Some 1) example_db)
  /\ listByTopic "AAPL" None example_db = listByTopic "AAPL" (Some 10) example_db.
Proof.
  apply (listByTopic_bounded_matching_newest_first "AAPL" 1 example_db). lia.
Defined.

(** C7 as stated fails at a negative limit: [LIMIT -1] puts no bound on
    the result, so both rows of the topic come back. *)
Lemma listByTopic_negative_limit_unbounded :
  map id (listByTopic "AAPL" (Some (-1)) example_db) = [2; 1]
  /\ ~ (Z.of_nat (List.length (listByTopic "AAPL" (Some (-1)) example_db)) <= -1).
Proof.
  split; [vm_compute; reflexivity|]. vm_compute. intros H. apply H. reflexivity.
Qed.

End RepositoryFacts.

(** * Facts about search_web *)

Section SearchFacts.
Import Cache TopicNews Server.

Lemma append_assoc (a b c : string) : (a +++ b) +++ c = a +++ (b +++ c).
Proof. induction a as [|x a IH]; simpl; [|rewrite IH]; reflexivity. Qed.






End SearchFacts.

(** * Facts about save_to_db on a cached result *)

Section SaveFacts.
Import Cache TopicNews Server.

Variable url_hostname : string -> option string.
Variable dbPath : string.

Lemma saveMany_table stamps rows db :
  table (fst (saveMany stamps rows db))
  = table db ++ appended stamps 0 (high_water db) rows
  /\ snd (saveMany stamps rows db) = map id (appended stamps 0 (high_water db) rows).
Proof.
  destruct (saveMany_loop_spec stamps rows 0%nat db []) as [Ht [Hids _]].
  split; [exact Ht | exact Hids].
Qed.

Lemma saveMany_getById stamps rows db r :
  In r (appended stamps 0 (high_water db) rows) ->
  getById (id r) (fst (saveMany stamps rows db)) = Some r.
Proof.
  intros Hr. unfold getById, selectById.
  rewrite (proj1 (saveMany_table stamps rows db)).
  rewrite find_app_skip.
  - apply In_nth_error in Hr. destruct Hr as [j Hj].
    apply (find_by_id_nth _ j r); [apply appended_ids_increasing | exact Hj].
  - intros old Hold. apply Z.eqb_neq.
    apply appended_ids_above in Hr. apply max_rowid_bound in Hold.
    unfold high_water in Hr. lia.
Qed.

Lemma non_null_found (db : Db) (l : list TopicNewsRow) :
  (forall r, In r l -> getById (id r) db = Some r) ->
  non_null (map (fun i => getById i db) (map id l)) = l.
Proof.
  induction l as [|r l IH]; simpl; intros H; [reflexivity|].
  rewrite (H r (or_introl eq_refl)). f_equal. apply IH. intros x Hx. apply H. now right.
Qed.

Lemma rowsToSave_derived topic answer srcs :
  rowsToSave url_hostname topic answer srcs
  = map (derived_row url_hostname topic answer)
        (filter (fun s => negb (lacks_url s)) srcs).
Proof.
  induction srcs as [|s srcs IH]; simpl; [reflexivity|].
  rewrite IH. clear IH.
  assert (Hl : lacks_url s
               = negb (Js.truthy match sr_url s with Some u => Js.trim u | None => "" end)).
  { unfold lacks_url. destruct (sr_url s); reflexivity. }
  assert (Hd : derived_row url_hostname topic answer s
               = mkInsert topic
                   (sourceFromUrl url_hostname
                      match sr_url s with Some u => Js.trim u | None => "" end)
                   (Js.trimmed_or (sr_title s) "Untitled")
                   match sr_url s with Some u => Js.trim u | None => "" end
                   (toSummary s answer)).
  { unfold derived_row. destruct (sr_url s); reflexivity. }
  rewrite Hl.
  destruct (Js.truthy match sr_url s with Some u => Js.trim u | None => "" end);
    simpl; [rewrite Hd|]; reflexivity.
Qed.

Lemma save_to_db_hit result_id topic now stamps st cached :
  snd (read_cached now result_id (searchCache st)) = Some cached ->
  let rows := rowsToSave url_hostname (Js.trimmed_or topic (query cached))
                (answerText cached) (firstn 5 (sources cached)) in
  let new := appended stamps 0 (high_water (topicNewsRepo st)) rows in
  save_to_db url_hostname dbPath result_id topic now stamps st
  = (mkState (cleanupSearchCache now (searchCache st))
             (fst (saveMany stamps rows (topicNewsRepo st))),
     Text (saved_text dbPath (map id new) new)).
Proof.
  intros Hread rows new. unfold save_to_db.
  unfold read_cached in *. simpl in Hread. rewrite Hread.
  unfold saveNewsRows, Js.take. fold rows.
  destruct (saveMany stamps rows (topicNewsRepo st)) as [db1 ids] eqn:Hsave.
  pose proof (saveMany_table stamps rows (topicNewsRepo st)) as [_ Hids].
  pose proof (saveMany_getById stamps rows (topicNewsRepo st)) as Hget.
  rewrite Hsave in Hids, Hget. simpl in Hids, Hget. fold new in Hids, Hget.
  subst ids. rewrite (non_null_found db1 new Hget). reflexivity.
Qed.

(** C10.  When the cached result is there but none of its first five
    sources has a url (none at all, or a blank one), and so also when it has
    no sources, [save_to_db] leaves the repository as it was and still answers
    in the shape of a success: "Saved 0 row(s)" with "(none)" for the ids,
    which is not the message of a cache miss. *)
Theorem save_without_urls_reports_zero_rows
  (result_id : string) (topic : option string) (now : Z)
  (stamps : nat -> string) (st : State) (cached : CachedSearchResult) :
  snd (read_cached now result_id (searchCache st)) = Some cached ->
  (forall s, In s (firstn 5 (sources cached)) -> lacks_url s = true) ->
  snd (save_to_db url_hostname dbPath result_id topic now stamps st)
  = Text ("Saved 0 row(s) to SQLite table 'topic_news' at " +++ dbPath +++ "."
          +++ Js.nl +++ "ids: (none)")
  /\ topicNewsRepo (fst (save_to_db url_hostname dbPath result_id topic now stamps st))
     = topicNewsRepo st
  /\ snd (save_to_db url_hostname dbPath result_id topic now stamps st)
     <> Text (no_cached_search result_id).
Proof.
  intros Hread Hnone.
  rewrite (save_to_db_hit result_id topic now stamps st cached Hread).
  rewrite rowsToSave_derived.
  replace (filter (fun s => negb (lacks_url s)) (firstn 5 (sources cached)))
    with (@nil SearchResult).
  - simpl. repeat split. discriminate.
  - symmetry. generalize dependent (firstn 5 (sources cached)).
    intros l Hl. induction l as [|s l IH]; simpl; [reflexivity|].
    rewrite (Hl s (or_introl eq_refl)). simpl. apply IH.
    intros x Hx. apply Hl. now right.
Qed.

(** C4, as the code has it.  From a cached result that is there at save
    time [save_to_db] derives one row for each of the first five sources
    whose url is not blank, in their order, so five rows at most; sources
    without url are skipped.  The url need not parse: the row takes the host
    of its url as source when the url parses and "unknown" when it does not.
    The topic of the rows is the query when no topic is given.  The rows go
    through [saveMany], and the ids it assigned come back in the text, one for
    each row, each leading to its row. *)
Theorem save_derives_rows_for_sources_with_url
  (result_id : string) (topic : option string) (now : Z)
  (stamps : nat -> string) (st : State) (cached : CachedSearchResult) :
  snd (read_cached now result_id (searchCache st)) = Some cached ->
  let sqlTopic := Js.trimmed_or topic (query cached) in
  let rows := rowsToSave url_hostname sqlTopic (answerText cached)
                (firstn 5 (sources cached)) in
  let out := save_to_db url_hostname dbPath result_id topic now stamps st in
  let ids := snd (saveMany stamps rows (topicNewsRepo st)) in
  (List.length rows <= 5)%nat
  /\ rows = map (derived_row url_hostname sqlTopic (answerText cached))
                (filter (fun s => negb (lacks_url s)) (firstn 5 (sources cached)))
  /\ (forall row, In row rows ->
        new_topic row = sqlTopic
        /\ Js.truthy (new_url row) = true
        /\ new_source row = match url_hostname (new_url row) with
                            | Some host => host
                            | None => "unknown"
                            end)
  /\ (topic = None -> sqlTopic = query cached)
  /\ topicNewsRepo (fst out) = fst (saveMany stamps rows (topicNewsRepo st))
  /\ List.length ids = List.length rows
  /\ (forall j row, nth_error rows j = Some row ->
        exists rowid, nth_error ids j = Some rowid
                      /\ getById rowid (topicNewsRepo (fst out))
                         = Some (stored rowid row (stamps j)))
  /\ exists saved, map id saved = ids /\ snd out = Text (saved_text dbPath ids saved).
Proof.
  intros Hread sqlTopic rows out ids.
  assert (Hout : out = (mkState (cleanupSearchCache now (searchCache st))
                                (fst (saveMany stamps rows (topicNewsRepo st))),
                        Text (saved_text dbPath
                                (map id (appended stamps 0 (high_water (topicNewsRepo st)) rows))
                                (appended stamps 0 (high_water (topicNewsRepo st)) rows)))).
  { apply (save_to_db_hit result_id topic now stamps st cached Hread). }
  assert (Hids : ids = map id (appended stamps 0 (high_water (topicNewsRepo st)) rows)).
  { apply saveMany_table. }
  assert (Hrows : rows = map (derived_row url_hostname sqlTopic (answerText cached))
                    (filter (fun s => negb (lacks_url s)) (firstn 5 (sources cached)))).
  { apply rowsToSave_derived. }
  split; [|split; [|split; [|split; [|split; [|split; [|split]]]]]].
  - rewrite Hrows, length_map.
    eapply Nat.le_trans; [apply filter_length_le | apply firstn_le_length].
  - exact Hrows.
  - intros row Hrow. rewrite Hrows in Hrow. apply in_map_iff in Hrow.
    destruct Hrow as [s [<- Hs]]. apply filter_In in Hs. destruct Hs as [_ Hs].
    apply negb_true_iff in Hs. unfold lacks_url in Hs. unfold derived_row. simpl.
    destruct (sr_url s) as [u|]; [|discriminate]. simpl.
    apply negb_false_iff in Hs. auto.
  - intros ->. reflexivity.
  - rewrite Hout. reflexivity.
  - rewrite Hids, length_map. apply appended_length.
  - intros j row Hj.
    pose proof (appended_nth stamps rows 0%nat (high_water (topicNewsRepo st)) j row Hj)
      as Hn. simpl in Hn.
    exists (high_water (topicNewsRepo st) + 1 + Z.of_nat j). split.
    + rewrite Hids, nth_error_map, Hn. reflexivity.
    + rewrite Hout. simpl.
      apply (saveMany_getById stamps rows (topicNewsRepo st) _ (nth_error_In _ _ Hn)).
  - exists (appended stamps 0 (high_water (topicNewsRepo st)) rows). split.
    + symmetry. exact Hids.
    + rewrite Hout, Hids. reflexivity.
Qed.

End SaveFacts.

(** * The handlers on concrete states *)

Section HandlerExamples.
Import Cache TopicNews Server.

Example save_example :
  snd (save_to_db example_hostname "news.sqlite" "h1" None 2000 example_stamps example_state)
  = Text ("Saved 2 row(s) to SQLite table 'topic_news' at news.sqlite." +++ Js.nl
          +++ "ids: 4, 5" +++ Js.nl +++ Js.nl +++ "Saved rows:" +++ Js.nl
          +++ "1. [4] Earnings" +++ Js.nl
          +++ "   topic: AAPL earnings" +++ Js.nl
          +++ "   source: example.com" +++ Js.nl
          +++ "   url: https://example.com/aapl" +++ Js.nl
          +++ "   created_at: 2026-01-01 00:00:00" +++ Js.nl
          +++ "   summary: Up." +++ Js.nl +++ Js.nl
          +++ "2. [5] Rumour" +++ Js.nl
          +++ "   topic: AAPL earnings" +++ Js.nl
          +++ "   source: unknown" +++ Js.nl
          +++ "   url: not a url" +++ Js.nl
          +++ "   created_at: 2026-01-01 00:00:01" +++ Js.nl
          +++ "   summary: Apple reported.").
Proof. vm_compute. reflexivity. Qed.

(** C4 as stated fails: the url "not a url" does not parse, and the source
    that carries it is saved all the same, under the source "unknown". *)
Lemma unparseable_url_is_saved :
  example_hostname "not a url" = None
  /\ getById 5 (topicNewsRepo (fst (save_to_db example_hostname "news.sqlite" "h1" None
                                      2000 example_stamps example_state)))
     = Some (mkRow 5 "AAPL earnings" "unknown" "Rumour" "not a url" "Apple reported."
                   "2026-01-01 00:00:01")
  /\ ~ (forall row,
          In row (rowsToSave example_hostname "AAPL earnings" "Apple reported."
                    (firstn 5 example_sources)) ->
          exists host, example_hostname (new_url row) = Some host).
Proof.
  split; [vm_compute; reflexivity|]. split; [vm_compute; reflexivity|].
  intros H.
  destruct (H (mkInsert "AAPL earnings" "unknown" "Rumour" "not a url" "Apple reported."))
    as [host Hhost].
  - vm_compute. right. left. reflexivity.
  - vm_compute in Hhost. discriminate.
Qed.

End HandlerExamples.

(** * Facts about a streamed turn *)

Section TurnFacts.
Import Cli.

Lemma append_empty_r (a : string) : a +++ "" = a.
Proof. induction a as [|x a IH]; simpl; [|rewrite IH]; reflexivity. Qed.

Lemma step_fragment st chunk :
  step st chunk
  = if from_model chunk
    then mkTurn (stdout st ++ fragment chunk) (streamed st +++ concat_all (fragment chunk))
    else st.
Proof.
  destruct st as [out acc]. destruct chunk as [|content node]; simpl; [reflexivity|].
  destruct (is_model_node node); simpl; [|reflexivity].
  destruct (extractChunkText content); simpl.
  - now rewrite app_nil_r, append_empty_r.
  - now rewrite append_empty_r.
Qed.

Lemma concat_all_app l1 l2 : concat_all (l1 ++ l2) = concat_all l1 +++ concat_all l2.
Proof.
  induction l1 as [|t l1 IH]; simpl; [reflexivity|]. now rewrite IH, append_assoc.
Qed.

Lemma fold_step stream : forall st,
  fold_left step stream st
  = mkTurn (stdout st ++ model_fragments stream)
           (streamed st +++ concat_all (model_fragments stream)).
Proof.
  unfold model_fragments.
  induction stream as [|chunk stream IH]; intros [out acc]; simpl.
  - now rewrite app_nil_r, append_empty_r.
  - rewrite IH, step_fragment. destruct (from_model chunk); [|reflexivity].
    cbn [stdout streamed flat_map].
    now rewrite concat_all_app, <- app_assoc, append_assoc.
Qed.

Lemma fragment_nonempty chunk t : In t (fragment chunk) -> t <> "".
Proof.
  destruct chunk as [|content node]; simpl; [contradiction|].
  destruct (extractChunkText content); simpl; [contradiction|].
  intros [<-|[]]. discriminate.
Qed.

Lemma concat_all_empty l :
  (forall t, In t l -> t <> "") -> (concat_all l = "" <-> l = []).
Proof.
  intros Hne. destruct l as [|t l]; simpl; [tauto|].
  split; [|discriminate]. intros H. exfalso.
  destruct t as [|x t]; [apply (Hne ""); [now left | reflexivity] | discriminate].
Qed.

Example runTurn_example :
  stdout (runTurn [Pair (StringContent "Hel") (Some "model");
                   Pair (StringContent "tool says hi") (Some "tools");
                   NotAnArray;
                   Pair (ArrayContent [TextBlock "lo"; OtherBlock; TextBlock "!"]) (Some "model");
                   Pair (StringContent "") (Some "model")])
  = ["Hel"; "lo!"; Js.nl]
  /\ stdout (runTurn [Pair (StringContent "tool says hi") (Some "tools")])
     = [NO_TEXT_MARKER].
Proof. split; reflexivity. Qed.

End TurnFacts.

(** * The theorems at concrete states *)

Section Instances.
Import Cache TopicNews Server.

Lemma save_unknown_handle_inserts_nothing_witness :
  snd (save_to_db example_hostname "news.sqlite" "h0" None 2000 example_stamps example_state)
  = Text ("No cached search found for result_id '" +++ "h0" +++ "'. Run search_web again.")
  /\ topicNewsRepo (fst (save_to_db example_hostname "news.sqlite" "h0" None 2000
                           example_stamps example_state))
     = topicNewsRepo example_state
  /\ table (topicNewsRepo (fst (save_to_db example_hostname "news.sqlite" "h0" None 2000
                                  example_stamps example_state)))
     = table (topicNewsRepo example_state).
Proof.
  apply (save_unknown_handle_inserts_nothing example_hostname "news.sqlite" "h0" None 2000
           example_stamps example_state).
  reflexivity.
Defined.

Lemma read_treats_stale_as_absent_witness :
  snd (read_cached (1000 + SEARCH_CACHE_TTL_MS + 1) "h1" (searchCache example_state)) = None
  /\ Cache.get "h1" (fst (read_cached (1000 + SEARCH_CACHE_TTL_MS + 1) "h1"
                            (searchCache example_state))) = None.
Proof.
  destruct (read_treats_stale_as_absent example_hostname "news.sqlite" "h1"
              (mkCached "AAPL earnings" "Apple reported." example_sources 1000)
              (1000 + SEARCH_CACHE_TTL_MS + 1) (searchCache example_state))
    as [Hread [Hdropped _]].
  - reflexivity.
  - vm_compute. reflexivity.
  - split; [exact Hread | exact Hdropped].
Defined.

Lemma save_without_urls_reports_zero_rows_witness :
  snd (save_to_db example_hostname "news.sqlite" "h3" (Some "t") 2000 example_stamps
         linkless_state)
  = Text ("Saved 0 row(s) to SQLite table 'topic_news' at " +++ "news.sqlite" +++ "."
          +++ Js.nl +++ "ids: (none)")
  /\ topicNewsRepo (fst (save_to_db example_hostname "news.sqlite" "h3" (Some "t") 2000
                           example_stamps linkless_state))
     = topicNewsRepo linkless_state
  /\ snd (save_to_db example_hostname "news.sqlite" "h3" (Some "t") 2000 example_stamps
            linkless_state)
     <> Text (no_cached_search "h3").
Proof.
  apply (save_without_urls_reports_zero_rows example_hostname "news.sqlite" "h3" (Some "t")
           2000 example_stamps linkless_state
           (mkCached "q" "a" [mkSearchResult (Some "No link") None None None;
                              mkSearchResult None (Some "   ") None None] 1000)).
  - reflexivity.
  - simpl. intros s [<-|[<-|[]]]; reflexivity.
Defined.

Lemma save_derives_rows_for_sources_with_url_witness :
  (List.length (rowsToSave example_hostname "AAPL earnings" "Apple reported."
                  (firstn 5 example_sources)) <= 5)%nat
  /\ map new_source (rowsToSave example_hostname "AAPL earnings" "Apple reported."
                       (firstn 5 example_sources)) = ["example.com"; "unknown"].
Proof.
  split.
  - apply (save_derives_rows_for_sources_with_url example_hostname "news.sqlite" "h1" None
             2000 example_stamps example_state
             (mkCached "AAPL earnings" "Apple reported." example_sources 1000)).
    reflexivity.
  - vm_compute. reflexivity.
Defined.

End Instances.

(** * More about the repository: what a batch leaves alone, how batches
      compose, and the shape of the table *)

Section RepositoryMore.
Import TopicNews.

Lemma find_app_found {A : Type} (f : A -> bool) (l1 l2 : list A) x :
  find f l1 = Some x -> find f (l1 ++ l2) = Some x.
Proof.
  induction l1 as [|y l1 IH]; simpl; [discriminate|].
  destruct (f y); [trivial | exact IH].
Qed.

(** [saveMany] only appends: the table it leaves is the old table followed
    by one new row per row of the batch, so every row that was there is still
    there, unchanged, and [getById] answers as before on every id it knew. *)
Theorem saveMany_only_appends
  (stamps : nat -> string) (rows : list TopicNewsInsert) (db : Db) :
  let db' := fst (saveMany stamps rows db) in
  (exists new, table db' = table db ++ new /\ List.length new = List.length rows)
  /\ (forall r, In r (table db) -> In r (table db'))
  /\ (forall i r, getById i db = Some r -> getById i db' = Some r).
Proof.
  intros db'.
  destruct (saveMany_loop_spec stamps rows 0%nat db []) as [Ht _].
  fold (saveMany stamps rows db) in Ht. fold db' in Ht.
  split; [|split].
  - exists (appended stamps 0 (high_water db) rows). split; [exact Ht|].
    apply appended_length.
  - intros r Hr. rewrite Ht. apply in_or_app. now left.
  - intros i r Hget. unfold getById, selectById in *. rewrite Ht.
    now apply find_app_found.
Qed.

Lemma saveMany_loop_ext rows : forall (f g : nat -> string) i i' db acc,
  (forall j, f (i + j)%nat = g (i' + j)%nat) ->
  saveMany_loop f i rows db acc = saveMany_loop g i' rows db acc.
Proof.
  induction rows as [|row rest IH]; intros f g i i' db acc Hfg;
    cbn [saveMany_loop]; [reflexivity|].
  pose proof (Hfg 0%nat) as H0. rewrite !Nat.add_0_r in H0. rewrite H0.
  destruct (insert_run (g i') row db) as [db1 rowid].
  apply IH. intros j. specialize (Hfg (S j)).
  now rewrite !Nat.add_succ_r in Hfg.
Qed.

Lemma saveMany_loop_acc f rows : forall i db acc,
  saveMany_loop f i rows db acc
  = (fst (saveMany_loop f i rows db []), acc ++ snd (saveMany_loop f i rows db [])).
Proof.
  induction rows as [|row rest IH]; intros i db acc; cbn [saveMany_loop].
  - now rewrite app_nil_r.
  - destruct (insert_run (f i) row db) as [db1 rowid].
    rewrite (IH (S i) db1 (acc ++ [rowid])), (IH (S i) db1 ([] ++ [rowid])).
    cbn [fst snd]. now rewrite <- app_assoc.
Qed.

Lemma saveMany_loop_app f rows1 rows2 : forall i db acc,
  saveMany_loop f i (rows1 ++ rows2) db acc
  = saveMany_loop f (i + List.length rows1) rows2
      (fst (saveMany_loop f i rows1 db acc)) (snd (saveMany_loop f i rows1 db acc)).
Proof.
  induction rows1 as [|row rest IH]; intros i db acc;
    cbn [saveMany_loop app List.length fst snd].
  - now rewrite Nat.add_0_r.
  - destruct (insert_run (f i) row db) as [db1 rowid].
    rewrite IH. now rewrite Nat.add_succ_r.
Qed.

(** One batch or two: saving [rows1 ++ rows2] at once leaves the database,
    and returns the ids, that saving [rows1] and then [rows2] does. *)
Theorem saveMany_in_two_batches
  (stamps : nat -> string) (rows1 rows2 : list TopicNewsInsert) (db : Db) :
  let first := saveMany stamps rows1 db in
  let second := saveMany (fun j => stamps (List.length rows1 + j)%nat) rows2 (fst first) in
  saveMany stamps (rows1 ++ rows2) db = (fst second, snd first ++ snd second).
Proof.
  intros first second. unfold saveMany.
  rewrite saveMany_loop_app. simpl.
  fold (saveMany stamps rows1 db). fold first.
  rewrite saveMany_loop_acc.
  rewrite (saveMany_loop_ext rows2 stamps
             (fun j => stamps (List.length rows1 + j)%nat)
             (List.length rows1) 0%nat (fst first) []) by reflexivity.
  reflexivity.
Qed.

Lemma appended_ids_at_most stamps rows : forall i b r,
  In r (appended stamps i b rows) -> id r <= b + Z.of_nat (List.length rows).
Proof.
  induction rows as [|row rest IH]; intros i b r; [contradiction|].
  cbn [appended In List.length]. intros [<-|Hin].
  - simpl id. lia.
  - apply IH in Hin. lia.
Qed.

Lemma saveMany_loop_sequence stamps rows : forall i db acc,
  rows <> [] ->
  sqlite_sequence (fst (saveMany_loop stamps i rows db acc))
  = high_water db + Z.of_nat (List.length rows).
Proof.
  induction rows as [|row rest IH]; intros i db acc Hne; [contradiction|].
  cbn [saveMany_loop].
  destruct (insert_run (stamps i) row db) as [db1 rowid] eqn:Hins.
  assert (Hseq : sqlite_sequence db1 = high_water db + 1).
  { unfold insert_run in Hins. injection Hins as <- _. reflexivity. }
  assert (Hhw : high_water db1 = high_water db + 1).
  { pose proof (high_water_insert (stamps i) row db) as H. now rewrite Hins in H. }
  destruct rest as [|row' rest'].
  - simpl. rewrite Hseq. lia.
  - rewrite IH by discriminate. rewrite Hhw. cbn [List.length]. lia.
Qed.

Lemma sorted_app (l1 l2 : list Z) :
  StronglySorted Z.lt l1 -> StronglySorted Z.lt l2 ->
  (forall x y, In x l1 -> In y l2 -> x < y) ->
  StronglySorted Z.lt (l1 ++ l2).
Proof.
  induction l1 as [|a l1 IH]; simpl; intros H1 H2 Hlt; [exact H2|].
  inversion H1 as [|? ? H1' Hall]; subst. constructor.
  - apply IH; auto.
  - apply Forall_app. split; [exact Hall|].
    apply Forall_forall. intros y Hy. apply Hlt; [now left | exact Hy].
Qed.

(** The table keeps its shape: a new database has it, and [saveMany] on a
    database that has it leaves one that has it: ids increase in table order
    (so no id is used twice), are positive, and never exceed the
    AUTOINCREMENT counter. *)
Theorem saveMany_keeps_db_ok
  (stamps : nat -> string) (rows : list TopicNewsInsert) (db : Db) :
  db_ok empty_db
  /\ (db_ok db -> db_ok (fst (saveMany stamps rows db))).
Proof.
  split; [split; constructor|].
  intros [Hsorted Hbound].
  destruct rows as [|row rest]; [split; assumption|].
  set (batch := row :: rest).
  destruct (saveMany_loop_spec stamps batch 0%nat db []) as [Ht _].
  pose proof (saveMany_loop_sequence stamps batch 0%nat db [] ltac:(discriminate)) as Hseq.
  fold (saveMany stamps batch db) in Ht, Hseq.
  assert (Hold : forall r, In r (table db) -> 0 < id r <= high_water db).
  { intros r Hr. rewrite Forall_forall in Hbound. specialize (Hbound r Hr).
    unfold high_water. lia. }
  assert (Hhw : 0 <= high_water db).
  { unfold high_water. pose proof (max_rowid_nonneg (table db)). lia. }
  split.
  - rewrite Ht, map_app. apply sorted_app.
    + exact Hsorted.
    + apply appended_ids_increasing.
    + intros x y Hx Hy. apply in_map_iff in Hx. destruct Hx as [r [<- Hr]].
      apply in_map_iff in Hy. destruct Hy as [r' [<- Hr']].
      apply Hold in Hr. apply appended_ids_above in Hr'. lia.
  - rewrite Ht, Hseq. apply Forall_app. split; apply Forall_forall; intros r Hr.
    + apply Hold in Hr. lia.
    + pose proof (appended_ids_above _ _ _ _ _ Hr).
      pose proof (appended_ids_at_most _ _ _ _ _ Hr). lia.
Qed.

Lemma saveMany_keeps_db_ok_witness :
  db_ok (fst (saveMany example_stamps [mkInsert "t" "s" "T" "u" "x"] example_db)).
Proof.
  apply (proj2 (saveMany_keeps_db_ok example_stamps [mkInsert "t" "s" "T" "u" "x"]
                  example_db)).
  split.
  - vm_compute. repeat constructor.
  - vm_compute. repeat constructor; discriminate.
Defined.

(** On a table of that shape [getById] finds exactly the rows of the table,
    each under its own id, and nothing under an id that is not positive or
    that the counter has not reached. *)
Theorem getById_finds_exactly_the_rows (db : Db) :
  db_ok db ->
  (forall i r, getById i db = Some r <-> In r (table db) /\ id r = i)
  /\ (forall i, i <= 0 \/ sqlite_sequence db < i -> getById i db = None).
Proof.
  intros [Hsorted Hbound].
  assert (Hiff : forall i r, getById i db = Some r <-> In r (table db) /\ id r = i).
  { intros i r. unfold getById, selectById. split.
    - intros H. apply find_some in H. destruct H as [Hin Heq].
      apply Z.eqb_eq in Heq. auto.
    - intros [Hin <-]. apply In_nth_error in Hin. destruct Hin as [j Hj].
      now apply (find_by_id_nth (table db) j r). }
  split; [exact Hiff|].
  intros i Hout. destruct (getById i db) as [r|] eqn:Hget; [|reflexivity].
  apply Hiff in Hget. destruct Hget as [Hin <-].
  rewrite Forall_forall in Hbound. specialize (Hbound r Hin). lia.
Qed.

Lemma getById_finds_exactly_the_rows_witness :
  (forall i r, getById i example_db = Some r <-> In r (table example_db) /\ id r = i)
  /\ (forall i, i <= 0 \/ sqlite_sequence example_db < i -> getById i example_db = None).
Proof.
  apply (getById_finds_exactly_the_rows example_db).
  split.
  - vm_compute. repeat constructor.
  - vm_compute. repeat constructor; discriminate.
Defined.

End RepositoryMore.

(** * More about the listings *)

Section ListingMore.
Import TopicNews.

Lemma sql_limit_all {A : Type} limit (l : list A) :
  limit < 0 \/ Z.of_nat (List.length l) <= limit -> sql_limit limit l = l.
Proof.
  intros H. unfold sql_limit. destruct (limit <? 0) eqn:Hneg; [reflexivity|].
  apply Z.ltb_ge in Hneg. apply firstn_all2. lia.
Qed.

(** When the limit is negative, or the topic has no more rows than the
    limit, [listByTopic] returns every row of the topic: nothing is dropped
    and nothing is added. *)
Theorem listByTopic_returns_every_row_within_limit (t : string) (limit : Z) (db : Db) :
  limit < 0 \/ Z.of_nat (List.length (rows_of_topic t db)) <= limit ->
  Permutation (listByTopic t (Some limit) db) (rows_of_topic t db).
Proof.
  intros H. unfold listByTopic, selectByTopic. fold (rows_of_topic t db).
  rewrite sql_limit_all.
  - apply order_by_created_at_desc_perm.
  - rewrite (Permutation_length (order_by_created_at_desc_perm _)). exact H.
Qed.

Lemma listByTopic_returns_every_row_within_limit_witness :
  Permutation (listByTopic "AAPL" (Some 10) example_db) (rows_of_topic "AAPL" example_db).
Proof.
  apply (listByTopic_returns_every_row_within_limit "AAPL" 10 example_db).
  right. vm_compute. discriminate.
Defined.

(** For a limit that is not negative [listAll] returns at most [limit]
    rows of the table, newest first, and all of them when the table has no
    more than [limit]; without a limit argument the bound is 100. *)
Theorem listAll_bounded_newest_first (limit : Z) (db : Db) :
  0 <= limit ->
  let rows := listAll (Some limit) db in
  Z.of_nat (List.length rows) <= limit
  /\ (forall r, In r rows -> In r (table db))
  /\ StronglySorted not_older rows
  /\ (Z.of_nat (List.length (table db)) <= limit -> Permutation rows (table db))
  /\ listAll None db = listAll (Some 100) db.
Proof.
  intros Hlimit rows. unfold rows, listAll, selectAll.
  split; [|split; [|split; [|split]]].
  - unfold sql_limit. destruct (limit <? 0) eqn:Hneg; [apply Z.ltb_lt in Hneg; lia|].
    pose proof (firstn_le_length (Z.to_nat limit) (order_by_created_at_desc (table db))).
    lia.
  - intros r Hr. apply sql_limit_incl in Hr.
    now apply (Permutation_in _ (order_by_created_at_desc_perm _)) in Hr.
  - unfold sql_limit. destruct (limit <? 0).
    + apply order_by_created_at_desc_sorted.
    + apply firstn_sorted, order_by_created_at_desc_sorted.
  - intros Hfit. rewrite sql_limit_all.
    + apply order_by_created_at_desc_perm.
    + rewrite (Permutation_length (order_by_created_at_desc_perm _)). now right.
  - reflexivity.
Qed.

Lemma listAll_bounded_newest_first_witness :
  Z.of_nat (List.length (listAll (Some 2) example_db)) <= 2
  /\ map id (listAll (Some 2) example_db) = [3; 2].
Proof.
  split.
  - apply (listAll_bounded_newest_first 2 example_db). lia.
  - vm_compute. reflexivity.
Defined.

Lemma filter_none {A : Type} (f : A -> bool) (l : list A) :
  (forall x, In x l -> f x = false) -> filter f l = [].
Proof.
  induction l as [|x l IH]; simpl; intros H; [reflexivity|].
  rewrite (H x (or_introl eq_refl)). apply IH. intros y Hy. apply H. now right.
Qed.

Lemma appended_in stamps rows : forall i b r,
  In r (appended stamps i b rows) ->
  exists row j, In row rows /\ r = stored (id r) row (stamps j).
Proof.
  induction rows as [|row rest IH]; intros i b r; [contradiction|].
  cbn [appended In]. intros [<-|Hin].
  - exists row, i. split; [now left | reflexivity].
  - apply IH in Hin. destruct Hin as [row' [j [Hrow Hr]]].
    exists row', j. split; [now right | exact Hr].
Qed.

(** Saving rows under other topics leaves the listing of a topic as it
    was, for every limit. *)
Theorem saving_other_topics_keeps_listByTopic
  (t : string) (limit : option Z) (stamps : nat -> string)
  (rows : list TopicNewsInsert) (db : Db) :
  (forall row, In row rows -> new_topic row <> t) ->
  listByTopic t limit (fst (saveMany stamps rows db)) = listByTopic t limit db.
Proof.
  intros Hother. unfold listByTopic, selectByTopic.
  destruct (saveMany_loop_spec stamps rows 0%nat db []) as [Ht _].
  fold (saveMany stamps rows db) in Ht. rewrite Ht, filter_app.
  replace (filter _ (appended stamps 0 (high_water db) rows)) with (@nil TopicNewsRow).
  - now rewrite app_nil_r.
  - symmetry. apply filter_none.
    intros r Hr. apply appended_in in Hr. destruct Hr as [row [j [Hrow ->]]].
    simpl. apply String.eqb_neq. now apply Hother.
Qed.

Lemma saving_other_topics_keeps_listByTopic_witness :
  listByTopic "AAPL" (Some 5)
    (fst (saveMany example_stamps [mkInsert "TSLA" "s" "T" "u" "x"] example_db))
  = listByTopic "AAPL" (Some 5) example_db.
Proof.
  apply (saving_other_topics_keeps_listByTopic "AAPL" (Some 5) example_stamps
           [mkInsert "TSLA" "s" "T" "u" "x"] example_db).
  intros row [<-|[]]. simpl. discriminate.
Defined.

End ListingMore.

(** * More about the cleanup and the cache between tool calls *)

Section CacheMore.
Import Cache TopicNews Server.

Lemma cleanup_in_survivors now (c : SearchCache) e :
  In e (cleanupSearchCache now c) -> expired now (snd e) = false.
Proof.
  intros Hin.
  assert (Hpass : In e (expire_pass now c)).
  { unfold cleanupSearchCache in Hin.
    destruct (size (expire_pass now c) <=? SEARCH_CACHE_MAX_ITEMS)%nat; [exact Hin|].
    rewrite delete_all_filter in Hin. now apply filter_In in Hin. }
  unfold expire_pass in Hpass. rewrite expire_fold in Hpass.
  apply filter_In in Hpass. destruct Hpass as [Hc Hkeep].
  destruct (expired now (snd e)) eqn:Hexp; [|reflexivity].
  apply negb_true_iff in Hkeep.
  assert (Hex : existsb (fun w => expired now (snd w) && String.eqb (fst w) (fst e)) c = true).
  { apply existsb_exists. exists e. split; [exact Hc|].
    now rewrite Hexp, String.eqb_refl. }
  congruence.
Qed.

(** What a cleanup leaves under a handle is what the map held under it,
    and it is not older than the TTL: the cleanup invents nothing, changes no
    entry and leaves no stale one. *)
Theorem cleanup_never_invents_or_keeps_stale
  (now : Z) (c : SearchCache) (h : string) (v : CachedSearchResult) :
  NoDup (keys c) ->
  Cache.get h (cleanupSearchCache now c) = Some v ->
  Cache.get h c = Some v /\ now - createdAt v <= SEARCH_CACHE_TTL_MS.
Proof.
  intros Hnd Hget. apply get_some_in in Hget. split.
  - apply in_get_some; [exact Hnd|]. now apply (cleanup_incl now).
  - apply cleanup_in_survivors in Hget. unfold expired in Hget. simpl in Hget.
    rewrite Z.gtb_ltb in Hget. apply Z.ltb_ge in Hget. lia.
Qed.

Lemma cleanup_never_invents_or_keeps_stale_witness :
  Cache.get "1" (numbered_cache 3) = Some (mkCached "q" "a" [] 1)
  /\ 5 - createdAt (mkCached "q" "a" [] 1) <= SEARCH_CACHE_TTL_MS.
Proof.
  apply (cleanup_never_invents_or_keeps_stale 5 (numbered_cache 3) "1").
  - vm_compute. repeat constructor; simpl; intuition discriminate.
  - vm_compute. reflexivity.
Defined.

(** A cleanup of a map that is within capacity and holds nothing older
    than the TTL changes nothing. *)
Lemma cleanup_noop now (c : SearchCache) :
  (size c <= SEARCH_CACHE_MAX_ITEMS)%nat ->
  (forall e, In e c -> expired now (snd e) = false) ->
  cleanupSearchCache now c = c.
Proof.
  intros Hsize Hfresh. unfold cleanupSearchCache.
  assert (Hpass : expire_pass now c = c).
  { unfold expire_pass. rewrite expire_fold. apply forallb_filter_id.
    apply forallb_forall. intros e He. apply negb_true_iff.
    destruct (existsb _ c) eqn:Hex; [|reflexivity].
    apply existsb_exists in Hex. destruct Hex as [w [Hw Hb]].
    apply andb_true_iff in Hb. rewrite (Hfresh w Hw) in Hb. destruct Hb. discriminate. }
  rewrite Hpass. apply Nat.leb_le in Hsize. now rewrite Hsize.
Qed.

(** Cleaning up twice at the same time is cleaning up once. *)
Theorem cleanup_idempotent (now : Z) (c : SearchCache) :
  NoDup (keys c) ->
  cleanupSearchCache now (cleanupSearchCache now c) = cleanupSearchCache now c.
Proof.
  intros Hnd. apply cleanup_noop.
  - now apply cleanup_size_le.
  - intros e He. now apply (cleanup_in_survivors now c).
Qed.

Lemma cleanup_idempotent_witness :
  cleanupSearchCache (SEARCH_CACHE_TTL_MS + 1)
    (cleanupSearchCache (SEARCH_CACHE_TTL_MS + 1) (numbered_cache 3))
  = cleanupSearchCache (SEARCH_CACHE_TTL_MS + 1) (numbered_cache 3).
Proof.
  apply (cleanup_idempotent (SEARCH_CACHE_TTL_MS + 1) (numbered_cache 3)).
  vm_compute. repeat constructor; simpl; intuition discriminate.
Defined.

(** While the map is within capacity a cleanup is decided by age alone,
    with the TTL itself still allowed: a handle is found afterwards exactly
    when it was found before and its entry is at most 30 minutes old. *)
Theorem cleanup_within_capacity_decides_by_age
  (now : Z) (c : SearchCache) (h : string) (v : CachedSearchResult) :
  NoDup (keys c) -> (size c <= SEARCH_CACHE_MAX_ITEMS)%nat ->
  (Cache.get h (cleanupSearchCache now c) = Some v
   <-> Cache.get h c = Some v /\ now - createdAt v <= 30 * 60 * 1000).
Proof.
  intros Hnd Hsize. split.
  - intros Hget. apply get_some_in in Hget. split.
    + apply in_get_some; [exact Hnd|]. now apply (cleanup_incl now).
    + apply cleanup_in_survivors in Hget. unfold expired in Hget. simpl in Hget.
      rewrite Z.gtb_ltb in Hget. apply Z.ltb_ge in Hget.
      unfold SEARCH_CACHE_TTL_MS in Hget. lia.
  - intros [Hget Hage]. apply cleanup_keeps_within_capacity; auto.
    unfold expired. rewrite Z.gtb_ltb. apply Z.ltb_ge.
    unfold SEARCH_CACHE_TTL_MS. lia.
Qed.

Lemma cleanup_within_capacity_decides_by_age_witness :
  Cache.get "0" (cleanupSearchCache 1800000 (numbered_cache 3))
  = Some (mkCached "q" "a" [] 0)
  /\ Cache.get "0" (cleanupSearchCache 1800001 (numbered_cache 3)) = None.
Proof.
  split.
  - apply (cleanup_within_capacity_decides_by_age 1800000 (numbered_cache 3) "0").
    + vm_compute. repeat constructor; simpl; intuition discriminate.
    + vm_compute. repeat constructor.
    + split; [reflexivity | vm_compute; discriminate].
  - vm_compute. reflexivity.
Defined.

Lemma keys_set id v (c : SearchCache) k :
  In k (keys (Cache.set id v c)) <-> k = id \/ In k (keys c).
Proof.
  induction c as [|[k0 w] c IH]; simpl.
  - intuition.
  - destruct (String.eqb id k0) eqn:Hk; simpl.
    + apply String.eqb_eq in Hk. subst. intuition.
    + unfold keys in IH. rewrite IH. intuition.
Qed.

Lemma set_NoDup id v (c : SearchCache) : NoDup (keys c) -> NoDup (keys (Cache.set id v c)).
Proof.
  induction c as [|[k0 w] c IH]; simpl; intros Hnd.
  - constructor; [intros [] | constructor].
  - inversion Hnd as [|? ? Hnotin Hnd']; subst.
    destruct (String.eqb id k0) eqn:Hk; simpl.
    + apply String.eqb_eq in Hk. subst. now constructor.
    + apply String.eqb_neq in Hk. constructor; [|now apply IH].
      intros Hin. apply (keys_set id v c k0) in Hin. intuition.
Qed.

Lemma set_size id v (c : SearchCache) : (size (Cache.set id v c) <= S (size c))%nat.
Proof.
  unfold size. induction c as [|[k0 w] c IH]; simpl; [lia|].
  destruct (String.eqb id k0); simpl; lia.
Qed.

Lemma get_set_other h id v (c : SearchCache) :
  h <> id -> Cache.get h (Cache.set id v c) = Cache.get h c.
Proof.
  intros Hne. induction c as [|[k0 w] c IH]; simpl.
  - apply String.eqb_neq in Hne. now rewrite Hne.
  - destruct (String.eqb id k0) eqn:Hk; simpl.
    + apply String.eqb_eq in Hk. subst.
      apply String.eqb_neq in Hne. now rewrite Hne.
    + now rewrite IH.
Qed.

(** A search leaves the other cached results where they are, as long as
    the map has room and they are within the TTL when the cleanup runs. *)
Theorem search_web_keeps_other_results
  (st : State) (q : string) (http : HttpOutcome) (resultId : string) (t_set t_cleanup : Z)
  (h : string) (v : CachedSearchResult) :
  NoDup (keys (searchCache st)) ->
  (size (searchCache st) < SEARCH_CACHE_MAX_ITEMS)%nat ->
  h <> resultId ->
  Cache.get h (searchCache st) = Some v ->
  t_cleanup - createdAt v <= SEARCH_CACHE_TTL_MS ->
  Cache.get h (searchCache (fst (search_web q http resultId t_set t_cleanup st))) = Some v.
Proof.
  intros Hnd Hsize Hne Hget Hage. unfold search_web.
  destruct (fetchLatestWebData http) as [message | [answer srcs]]; cbn [fst searchCache].
  - exact Hget.
  - apply cleanup_keeps_within_capacity.
    + now apply set_NoDup.
    + pose proof (set_size resultId (mkCached q answer srcs t_set) (searchCache st)). lia.
    + now rewrite get_set_other.
    + unfold expired. rewrite Z.gtb_ltb. apply Z.ltb_ge. lia.
Qed.

End CacheMore.

Section HandlerCache.
Import Cache TopicNews Server.

Variable url_hostname : string -> option string.
Variable dbPath : string.

(** Between tool calls the cache has distinct handles and at most 200
    entries: the empty cache does, and [search_web] and [save_to_db] leave
    such a cache whenever they start from one, whatever the handle, the
    clock readings and the outcome of the search. *)
Theorem handlers_keep_cache_within_capacity
  (st : State) (q : string) (http : HttpOutcome) (resultId : string) (t_set t_cleanup : Z)
  (result_id : string) (topic : option string) (now : Z) (stamps : nat -> string) :
  cache_ok (searchCache st) ->
  cache_ok (searchCache (fst (search_web q http resultId t_set t_cleanup st)))
  /\ cache_ok (searchCache (fst (save_to_db url_hostname dbPath result_id topic now
                                   stamps st))).
Proof.
  intros [Hnd Hsize]. split.
  - unfold search_web.
    destruct (fetchLatestWebData http) as [message | [answer srcs]]; cbn [fst searchCache].
    + split; assumption.
    + split; [apply cleanup_NoDup | apply cleanup_size_le]; now apply set_NoDup.
  - assert (Hcache : searchCache (fst (save_to_db url_hostname dbPath result_id topic now
                                         stamps st))
                     = cleanupSearchCache now (searchCache st)).
    { unfold save_to_db, read_cached.
      destruct (Cache.get result_id (cleanupSearchCache now (searchCache st))); [|reflexivity].
      destruct (saveNewsRows _ _ _ _ _ _); reflexivity. }
    rewrite Hcache. split; [now apply cleanup_NoDup | now apply cleanup_size_le].
Qed.

End HandlerCache.

Section CacheMoreInstances.
Import Cache TopicNews Server.

Lemma handlers_keep_cache_within_capacity_witness :
  cache_ok (searchCache (fst (search_web "q" MissingApiKey "h9" 1 2 example_state)))
  /\ cache_ok (searchCache (fst (save_to_db example_hostname "news.sqlite" "h1" None 2000
                                   example_stamps example_state))).
Proof.
  apply (handlers_keep_cache_within_capacity example_hostname "news.sqlite" example_state
           "q" MissingApiKey "h9" 1 2 "h1" None 2000 example_stamps).
  split.
  - vm_compute. repeat constructor; simpl; intuition discriminate.
  - vm_compute. repeat constructor.
Defined.

Lemma search_web_keeps_other_results_witness :
  Cache.get "h1"
    (searchCache (fst (search_web "MSFT" (Response true 200 (Some "Fine.") None) "h2"
                         3000 3001 example_state)))
  = Some (mkCached "AAPL earnings" "Apple reported." example_sources 1000).
Proof.
  apply (search_web_keeps_other_results example_state "MSFT"
           (Response true 200 (Some "Fine.") None) "h2" 3000 3001 "h1").
  - vm_compute. repeat constructor; simpl; intuition discriminate.
  - vm_compute. repeat constructor.
  - discriminate.
  - reflexivity.
  - vm_compute. discriminate.
Defined.

End CacheMoreInstances.

(** * More about what save_to_db stores *)

Section SummaryFacts.
Import Cache TopicNews Server.

Lemma substring_length_le n (s : string) : (String.length (substring 0 n s) <= n)%nat.
Proof.
  revert s. induction n as [|n IH]; intros [|x s]; simpl; try lia.
  specialize (IH s). lia.
Qed.

Lemma substring_truthy n (s : string) :
  Js.truthy (substring 0 (S n) s) = Js.truthy s.
Proof. destruct s; reflexivity. Qed.

Lemma or_else_truthy a b : Js.truthy b = true -> Js.truthy (Js.or_else a b) = true.
Proof. unfold Js.or_else. destruct (Js.truthy a) eqn:Ha; auto. Qed.

Lemma trimmed_or_truthy o b : Js.truthy b = true -> Js.truthy (Js.trimmed_or o b) = true.
Proof. destruct o; simpl; [apply or_else_truthy | trivial]. Qed.

(** The summary of a row is never empty and never longer than 1500
    characters, whatever the snippet and the answer are. *)
Theorem toSummary_bounded_nonempty (src : SearchResult) (fallback : string) :
  (String.length (toSummary src fallback) <= 1500)%nat
  /\ Js.truthy (toSummary src fallback) = true.
Proof.
  unfold toSummary, Js.slice0. split.
  - apply substring_length_le.
  - rewrite substring_truthy. apply trimmed_or_truthy, or_else_truthy. reflexivity.
Qed.

End SummaryFacts.

Section SaveMore.
Import Cache TopicNews Server.

Variable url_hostname : string -> option string.
Variable dbPath : string.

Lemma derived_row_complete t answer src :
  lacks_url src = false ->
  let row := derived_row url_hostname t answer src in
  new_topic row = t
  /\ Js.truthy (new_title row) = true
  /\ Js.truthy (new_url row) = true
  /\ Js.truthy (new_summary row) = true
  /\ (String.length (new_summary row) <= 1500)%nat.
Proof.
  intros Hurl. unfold derived_row. simpl. repeat split.
  - now apply trimmed_or_truthy.
  - unfold lacks_url in Hurl. destruct (sr_url src) as [u|]; [|discriminate].
    simpl. now apply negb_false_iff in Hurl.
  - unfold toSummary, Js.slice0. rewrite substring_truthy.
    apply trimmed_or_truthy, or_else_truthy. reflexivity.
  - unfold toSummary, Js.slice0. apply substring_length_le.
Qed.

(** Whatever [save_to_db] is called with, a row of the table afterwards
    either was there before or is complete: its title, its url and its
    summary are not empty, and the summary has at most 1500 characters. *)
Theorem save_to_db_stores_only_complete_rows
  (result_id : string) (topic : option string) (now : Z)
  (stamps : nat -> string) (st : State) (r : TopicNewsRow) :
  In r (table (topicNewsRepo (fst (save_to_db url_hostname dbPath result_id topic now
                                     stamps st)))) ->
  In r (table (topicNewsRepo st))
  \/ (Js.truthy (title r) = true /\ Js.truthy (url r) = true
      /\ Js.truthy (summary r) = true /\ (String.length (summary r) <= 1500)%nat).
Proof.
  destruct (snd (read_cached now result_id (searchCache st))) as [cached|] eqn:Hread.
  - rewrite (save_to_db_hit url_hostname dbPath result_id topic now stamps st cached Hread).
    cbn [fst topicNewsRepo].
    rewrite (proj1 (saveMany_table stamps _ (topicNewsRepo st))).
    intros Hin. apply in_app_or in Hin. destruct Hin as [Hold|Hnew]; [now left|right].
    apply appended_in in Hnew. destruct Hnew as [row [j [Hrow ->]]].
    rewrite rowsToSave_derived in Hrow. apply in_map_iff in Hrow.
    destruct Hrow as [src [<- Hsrc]]. apply filter_In in Hsrc.
    destruct Hsrc as [_ Hurl]. apply negb_true_iff in Hurl.
    destruct (derived_row_complete (Js.trimmed_or topic (query cached))
                (answerText cached) src Hurl) as [_ [Ht [Hu [Hs Hl]]]].
    simpl. auto.
  - unfold read_cached in Hread. simpl in Hread.
    rewrite (save_to_db_miss url_hostname dbPath result_id topic now stamps st Hread).
    intros Hin. now left.
Qed.

(** [save_to_db] does not use the handle up.  After a save the cached
    result is still there, and a second save within the TTL stores the same
    derived rows once more, after the first ones and under ids that continue
    where the first ones stopped. *)
Theorem save_twice_stores_the_rows_twice
  (result_id : string) (topic : option string) (now now' : Z)
  (stamps stamps' : nat -> string) (st : State) (cached : CachedSearchResult) :
  NoDup (keys (searchCache st)) ->
  snd (read_cached now result_id (searchCache st)) = Some cached ->
  now' - createdAt cached <= SEARCH_CACHE_TTL_MS ->
  let st1 := fst (save_to_db url_hostname dbPath result_id topic now stamps st) in
  let st2 := fst (save_to_db url_hostname dbPath result_id topic now' stamps' st1) in
  let rows := rowsToSave url_hostname (Js.trimmed_or topic (query cached))
                (answerText cached) (firstn 5 (sources cached)) in
  let b := high_water (topicNewsRepo st) in
  snd (read_cached now' result_id (searchCache st1)) = Some cached
  /\ table (topicNewsRepo st2)
     = table (topicNewsRepo st)
       ++ appended stamps 0 b rows
       ++ appended stamps' 0 (b + Z.of_nat (List.length rows)) rows.
Proof.
  intros Hnd Hread Hage st1 st2 rows b.
  assert (Hst1 : st1 = mkState (cleanupSearchCache now (searchCache st))
                         (fst (saveMany stamps rows (topicNewsRepo st)))).
  { unfold st1.
    now rewrite (save_to_db_hit url_hostname dbPath result_id topic now stamps st cached Hread). }
  assert (Hread' : snd (read_cached now' result_id (searchCache st1)) = Some cached).
  { rewrite Hst1. unfold read_cached in *. simpl in *.
    apply cleanup_keeps_within_capacity.
    - now apply cleanup_NoDup.
    - now apply cleanup_size_le.
    - exact Hread.
    - unfold expired. rewrite Z.gtb_ltb. apply Z.ltb_ge. lia. }
  split; [exact Hread'|].
  unfold st2.
  rewrite (save_to_db_hit url_hostname dbPath result_id topic now' stamps' st1 cached Hread').
  cbn [fst topicNewsRepo]. fold rows.
  rewrite (proj1 (saveMany_table stamps' rows (topicNewsRepo st1))).
  rewrite Hst1. cbn [topicNewsRepo].
  destruct (saveMany_loop_spec stamps rows 0%nat (topicNewsRepo st) []) as [Ht [_ Hhw]].
  fold (saveMany stamps rows (topicNewsRepo st)) in Ht, Hhw.
  rewrite Ht, Hhw. fold b. now rewrite <- app_assoc.
Qed.

(** A row that [save_to_db] has stored is what [get_by_id] shows under
    the id that went with it: the rendering of that one row, with the topic,
    source, title, url and summary that were derived. *)
Theorem saved_row_is_served_by_get_by_id
  (result_id : string) (topic : option string) (now : Z)
  (stamps : nat -> string) (st : State) (cached : CachedSearchResult)
  (j : nat) (row : TopicNewsInsert) :
  snd (read_cached now result_id (searchCache st)) = Some cached ->
  nth_error (rowsToSave url_hostname (Js.trimmed_or topic (query cached))
               (answerText cached) (firstn 5 (sources cached))) j = Some row ->
  let rowid := high_water (topicNewsRepo st) + 1 + Z.of_nat j in
  nth_error (snd (saveNewsRows url_hostname stamps (Js.trimmed_or topic (query cached))
                    (answerText cached) (sources cached) (topicNewsRepo st))) j
  = Some rowid
  /\ get_by_id rowid (fst (save_to_db url_hostname dbPath result_id topic now stamps st))
     = Text (renderDbRows [stored rowid row (stamps j)]).
Proof.
  intros Hread Hj rowid.
  set (rows := rowsToSave url_hostname (Js.trimmed_or topic (query cached))
                 (answerText cached) (firstn 5 (sources cached))) in *.
  pose proof (appended_nth stamps rows 0%nat (high_water (topicNewsRepo st)) j row Hj) as Hn.
  simpl in Hn. fold rowid in Hn. split.
  - unfold saveNewsRows, Js.take. fold rows.
    rewrite (proj2 (saveMany_table stamps rows (topicNewsRepo st))).
    now rewrite nth_error_map, Hn.
  - rewrite (save_to_db_hit url_hostname dbPath result_id topic now stamps st cached Hread).
    unfold get_by_id. cbn [fst topicNewsRepo]. fold rows.
    pose proof (saveMany_getById stamps rows (topicNewsRepo st) _ (nth_error_In _ _ Hn)) as Hg.
    simpl in Hg. fold rowid in Hg. unfold stored. now rewrite Hg.
Qed.

End SaveMore.

Section SaveMoreInstances.
Import Cache TopicNews Server.

Lemma save_to_db_stores_only_complete_rows_witness :
  In (mkRow 5 "AAPL earnings" "unknown" "Rumour" "not a url" "Apple reported."
        "2026-01-01 00:00:01") (table example_db)
  \/ (Js.truthy "Rumour" = true /\ Js.truthy "not a url" = true
      /\ Js.truthy "Apple reported." = true
      /\ (String.length "Apple reported." <= 1500)%nat).
Proof.
  apply (save_to_db_stores_only_complete_rows example_hostname "news.sqlite" "h1" None 2000
           example_stamps example_state
           (mkRow 5 "AAPL earnings" "unknown" "Rumour" "not a url" "Apple reported."
              "2026-01-01 00:00:01")).
  vm_compute. do 4 right. left. reflexivity.
Defined.

Lemma save_twice_stores_the_rows_twice_witness :
  map id (table (topicNewsRepo
    (fst (save_to_db example_hostname "news.sqlite" "h1" None 3000 example_stamps
            (fst (save_to_db example_hostname "news.sqlite" "h1" None 2000 example_stamps
                    example_state))))))
  = [1; 2; 3; 4; 5; 6; 7].
Proof.
  destruct (save_twice_stores_the_rows_twice example_hostname "news.sqlite" "h1" None
              2000 3000 example_stamps example_stamps example_state
              (mkCached "AAPL earnings" "Apple reported." example_sources 1000))
    as [_ Htable].
  - vm_compute. repeat constructor; simpl; intuition discriminate.
  - reflexivity.
  - vm_compute. discriminate.
  - rewrite Htable. vm_compute. reflexivity.
Defined.

Lemma saved_row_is_served_by_get_by_id_witness :
  get_by_id 5 (fst (save_to_db example_hostname "news.sqlite" "h1" None 2000 example_stamps
                      example_state))
  = Text (renderDbRows [mkRow 5 "AAPL earnings" "unknown" "Rumour" "not a url"
                          "Apple reported." "2026-01-01 00:00:01"]).
Proof.
  apply (saved_row_is_served_by_get_by_id example_hostname "news.sqlite" "h1" None 2000
           example_stamps example_state
           (mkCached "AAPL earnings" "Apple reported." example_sources 1000) 1%nat
           (mkInsert "AAPL earnings" "unknown" "Rumour" "not a url" "Apple reported.")).
  - reflexivity.
  - vm_compute. reflexivity.
Defined.

End SaveMoreInstances.

(** * The read handlers *)

Section ReadHandlers.
Import Cache TopicNews Server.

Lemma renderDbRows_starts (r : TopicNewsRow) (rs : list TopicNewsRow) :
  exists tail, renderDbRows (r :: rs) = String "1" tail.
Proof.
  unfold renderDbRows, Js.mapi, Js.join. cbn [Js.mapi_from String.concat].
  destruct (Js.mapi_from 1 renderDbRow rs); unfold renderDbRow; simpl; eexists; reflexivity.
Qed.

Lemma limited_nonempty {A : Type} (limit : Z) (l : list A) :
  1 <= limit -> l <> [] -> sql_limit limit l <> [].
Proof.
  intros Hlimit Hne. unfold sql_limit.
  destruct (limit <? 0) eqn:Hneg; [exact Hne|].
  destruct l as [|x l]; [contradiction|].
  destruct (Z.to_nat limit) as [|n] eqn:Hn; [lia|]. discriminate.
Qed.

Lemma ordered_nonempty (l : list TopicNewsRow) :
  l <> [] -> order_by_created_at_desc l <> [].
Proof.
  intros Hne Hnil. apply Hne.
  apply Permutation_nil. rewrite <- Hnil.
  apply order_by_created_at_desc_perm.
Qed.

(** With a limit of at least 1, as the input schema requires,
    [get_from_db] answers "No saved rows found" exactly when the table has no
    row of the topic; otherwise it answers with the rendering of the listing,
    which is a different text. *)
Theorem get_from_db_nothing_found_iff_no_row (t : string) (limit : Z) (st : State) :
  1 <= limit ->
  (get_from_db t limit st = Text ("No saved rows found for topic '" +++ t +++ "'.")
   <-> forall r, In r (table (topicNewsRepo st)) -> topic r <> t)
  /\ ((exists r, In r (table (topicNewsRepo st)) /\ topic r = t) ->
      get_from_db t limit st
      = Text (renderDbRows (listByTopic t (Some limit) (topicNewsRepo st)))).
Proof.
  intros Hlimit. unfold get_from_db.
  set (rows := listByTopic t (Some limit) (topicNewsRepo st)).
  assert (Hempty : rows = [] <-> forall r, In r (table (topicNewsRepo st)) -> topic r <> t).
  { split.
    - intros Hnil r Hr Ht.
      assert (Hne : rows_of_topic t (topicNewsRepo st) <> []).
      { intros Hf. assert (Hin : In r (rows_of_topic t (topicNewsRepo st))).
        { apply filter_In. split; [exact Hr | now apply String.eqb_eq]. }
        rewrite Hf in Hin. contradiction. }
      apply (limited_nonempty limit _ Hlimit (ordered_nonempty _ Hne)). exact Hnil.
    - intros Hnone. unfold rows, listByTopic, selectByTopic.
      rewrite filter_none.
      + unfold sql_limit. simpl.
        destruct (limit <? 0); [reflexivity | now destruct (Z.to_nat limit)].
      + intros r Hr. apply String.eqb_neq. now apply Hnone. }
  split.
  - rewrite <- Hempty. destruct rows as [|r rs]; simpl.
    + tauto.
    + split; [|discriminate]. intros H.
      destruct (renderDbRows_starts r rs) as [tail Htail].
      rewrite Htail in H. discriminate.
  - intros [r [Hr Ht]]. destruct rows as [|x xs] eqn:Hrows; [|reflexivity].
    exfalso. apply (proj1 Hempty eq_refl r Hr Ht).
Qed.

Lemma get_from_db_nothing_found_iff_no_row_witness :
  get_from_db "AAPL" 1 example_state
  = Text (renderDbRows (listByTopic "AAPL" (Some 1) (topicNewsRepo example_state))).
Proof.
  apply (get_from_db_nothing_found_iff_no_row "AAPL" 1 example_state).
  - lia.
  - exists (mkRow 1 "AAPL" "example.com" "First" "https://example.com/1" "one"
              "2026-01-01 00:00:00").
    split; [vm_compute; left; reflexivity | reflexivity].
Defined.

(** With a limit of at least 1 [get_all_from_db] answers "No saved rows
    found in topic_news." exactly when the table is empty. *)
Theorem get_all_from_db_nothing_found_iff_empty (limit : Z) (st : State) :
  1 <= limit ->
  (get_all_from_db limit st = Text "No saved rows found in topic_news."
   <-> table (topicNewsRepo st) = [])
  /\ (table (topicNewsRepo st) <> [] ->
      get_all_from_db limit st
      = Text (renderDbRows (listAll (Some limit) (topicNewsRepo st)))).
Proof.
  intros Hlimit. unfold get_all_from_db.
  set (rows := listAll (Some limit) (topicNewsRepo st)).
  assert (Hempty : rows = [] <-> table (topicNewsRepo st) = []).
  { split.
    - intros Hnil. destruct (table (topicNewsRepo st)) as [|r l] eqn:Ht; [reflexivity|].
      exfalso. apply (limited_nonempty limit (order_by_created_at_desc (r :: l)) Hlimit).
      + apply ordered_nonempty. discriminate.
      + unfold rows, listAll, selectAll in Hnil. now rewrite Ht in Hnil.
    - intros Hnil. unfold rows, listAll, selectAll. rewrite Hnil.
      unfold sql_limit. destruct (limit <? 0); [reflexivity | now destruct (Z.to_nat limit)]. }
  split.
  - rewrite <- Hempty. destruct rows as [|r rs]; simpl.
    + tauto.
    + split; [|discriminate]. intros H.
      destruct (renderDbRows_starts r rs) as [tail Htail].
      rewrite Htail in H. discriminate.
  - intros Hne. destruct rows as [|x xs] eqn:Hrows; [|reflexivity].
    exfalso. apply Hne. now apply Hempty.
Qed.

Lemma get_all_from_db_nothing_found_iff_empty_witness :
  get_all_from_db 100 (mkState [] empty_db) = Text "No saved rows found in topic_news.".
Proof.
  apply (get_all_from_db_nothing_found_iff_empty 100 (mkState [] empty_db)).
  - lia.
  - reflexivity.
Defined.

(** On a table of the shape that [saveMany] keeps, [get_by_id] shows each
    row of the table under its id, and answers "No row found" for every id
    that no row has, among them every id above the counter. *)
Theorem get_by_id_shows_the_row_or_none (st : State) :
  db_ok (topicNewsRepo st) ->
  (forall r, In r (table (topicNewsRepo st)) ->
             get_by_id (id r) st = Text (renderDbRows [r]))
  /\ (forall i, (forall r, In r (table (topicNewsRepo st)) -> id r <> i) ->
                get_by_id i st = Text ("No row found with id=" +++ Js.show_Z i +++ "."))
  /\ (forall i, sqlite_sequence (topicNewsRepo st) < i ->
                get_by_id i st = Text ("No row found with id=" +++ Js.show_Z i +++ ".")).
Proof.
  intros [Hsorted Hbound]. unfold get_by_id, getById, selectById.
  assert (Hnone : forall i, (forall r, In r (table (topicNewsRepo st)) -> id r <> i) ->
                            find (fun r => id r =? i) (table (topicNewsRepo st)) = None).
  { intros i Hno. destruct (find _ _) as [r|] eqn:Hfind; [|reflexivity].
    apply find_some in Hfind. destruct Hfind as [Hr Heq]. apply Z.eqb_eq in Heq.
    exfalso. now apply (Hno r Hr). }
  split; [|split].
  - intros r Hr. apply In_nth_error in Hr. destruct Hr as [j Hj].
    now rewrite (find_by_id_nth (table (topicNewsRepo st)) j r Hsorted Hj).
  - intros i Hno. now rewrite (Hnone i Hno).
  - intros i Hi. rewrite Hnone; [reflexivity|].
    intros r Hr. rewrite Forall_forall in Hbound. specialize (Hbound r Hr). lia.
Qed.

Lemma get_by_id_shows_the_row_or_none_witness :
  get_by_id 4 example_state = Text ("No row found with id=" +++ Js.show_Z 4 +++ ".").
Proof.
  apply (get_by_id_shows_the_row_or_none example_state).
  - split.
    + vm_compute. repeat constructor.
    + vm_compute. repeat constructor; discriminate.
  - vm_compute. reflexivity.
Defined.

End ReadHandlers.

Section SaveThenRead.
Import Cache TopicNews Server.

Variable url_hostname : string -> option string.
Variable dbPath : string.

(** What was saved is found by topic: after [save_to_db] has stored at
    least one row, [get_from_db] on the topic of the save, with any limit the
    schema admits, answers with rows and not with "No saved rows found". *)
Theorem saved_topic_is_found_by_get_from_db
  (result_id : string) (topic : option string) (now : Z)
  (stamps : nat -> string) (st : State) (cached : CachedSearchResult) (limit : Z) :
  snd (read_cached now result_id (searchCache st)) = Some cached ->
  (exists src, In src (firstn 5 (sources cached)) /\ lacks_url src = false) ->
  1 <= limit ->
  let sqlTopic := Js.trimmed_or topic (query cached) in
  let st1 := fst (save_to_db url_hostname dbPath result_id topic now stamps st) in
  get_from_db sqlTopic limit st1
  = Text (renderDbRows (listByTopic sqlTopic (Some limit) (topicNewsRepo st1)))
  /\ listByTopic sqlTopic (Some limit) (topicNewsRepo st1) <> [].
Proof.
  intros Hread [src [Hsrc Hurl]] Hlimit sqlTopic st1.
  set (rows := rowsToSave url_hostname sqlTopic (answerText cached)
                 (firstn 5 (sources cached))).
  assert (Hrow : In (derived_row url_hostname sqlTopic (answerText cached) src) rows).
  { unfold rows. rewrite rowsToSave_derived. apply in_map. apply filter_In.
    split; [exact Hsrc | now rewrite Hurl]. }
  apply In_nth_error in Hrow. destruct Hrow as [j Hj].
  pose proof (appended_nth stamps rows 0%nat (high_water (topicNewsRepo st)) j _ Hj) as Hn.
  apply nth_error_In in Hn.
  assert (Htable : In (stored (high_water (topicNewsRepo st) + 1 + Z.of_nat j)
                         (derived_row url_hostname sqlTopic (answerText cached) src)
                         (stamps (0 + j)%nat))
                      (rows_of_topic sqlTopic (topicNewsRepo st1))).
  { unfold st1.
    rewrite (save_to_db_hit url_hostname dbPath result_id topic now stamps st cached Hread).
    cbn [fst topicNewsRepo]. fold sqlTopic rows. unfold rows_of_topic.
    apply filter_In. split.
    - rewrite (proj1 (saveMany_table stamps rows (topicNewsRepo st))).
      apply in_or_app. right. exact Hn.
    - simpl. apply String.eqb_refl. }
  assert (Hne : listByTopic sqlTopic (Some limit) (topicNewsRepo st1) <> []).
  { unfold listByTopic, selectByTopic. fold (rows_of_topic sqlTopic (topicNewsRepo st1)).
    apply limited_nonempty; [exact Hlimit|]. apply ordered_nonempty.
    intros Hnil. rewrite Hnil in Htable. contradiction. }
  split; [|exact Hne]. unfold get_from_db.
  destruct (listByTopic sqlTopic (Some limit) (topicNewsRepo st1)); [contradiction|].
  reflexivity.
Qed.

End SaveThenRead.

Section SaveThenReadInstances.
Import Cache TopicNews Server.

Lemma saved_topic_is_found_by_get_from_db_witness :
  listByTopic "AAPL earnings" (Some 10)
    (topicNewsRepo (fst (save_to_db example_hostname "news.sqlite" "h1" None 2000
                           example_stamps example_state)))
  <> [].
Proof.
  apply (saved_topic_is_found_by_get_from_db example_hostname "news.sqlite" "h1" None 2000
           example_stamps example_state
           (mkCached "AAPL earnings" "Apple reported." example_sources 1000) 10).
  - reflexivity.
  - exists (mkSearchResult (Some "Rumour") (Some "not a url") None None).
    split; [vm_compute; right; left; reflexivity | reflexivity].
  - lia.
Defined.

End SaveThenReadInstances.

(** * The command line of the CLI *)

Section ArgsFacts.
Import Main.

Lemma substring_all (s : string) : substring 0 (String.length s) s = s.
Proof. induction s as [|x s IH]; simpl; [|rewrite IH]; reflexivity. Qed.

Lemma slice2_option (k : string) : slice2 ("--" +++ k) = k.
Proof. unfold slice2. simpl. rewrite Nat.sub_0_r. apply substring_all. Qed.

Lemma option_token (token : string) :
  startsWith "--" token = true -> token = "--" +++ slice2 token.
Proof.
  unfold startsWith. intros H. apply prefix_correct in H.
  destruct token as [|a [|b rest]]; simpl in H; try discriminate H.
  injection H as -> ->.
  unfold slice2. simpl. now rewrite Nat.sub_0_r, substring_all.
Qed.

Lemma startsWith_option (k : string) : startsWith "--" ("--" +++ k) = true.
Proof.
  unfold startsWith. apply prefix_correct. simpl. now destruct k.
Qed.

(** An invariant of the loop: a property of the object that every
    assignment the loop can make preserves holds at the end. *)
Lemma parseArgs_loop_inv (I : Values -> Prop) (argv0 : list string) :
  (forall key v values,
     I values -> In ("--" +++ key) argv0 ->
     v = "true" \/ (In v argv0 /\ Js.truthy v = true /\ startsWith "--" v = false) ->
     I (assign key v values)) ->
  forall n argv values,
    (List.length argv <= n)%nat -> incl argv argv0 -> I values ->
    I (parseArgs_loop argv values).
Proof.
  intros Hstep. induction n as [|n IH]; intros argv values Hlen Hincl HI.
  - destruct argv; [exact HI | simpl in Hlen; lia].
  - destruct argv as [|token rest]; [exact HI|].
    cbn [parseArgs_loop]. simpl in Hlen.
    assert (Hrest : incl rest argv0) by (intros x Hx; apply Hincl; now right).
    destruct (startsWith "--" token) eqn:Hopt; cbn [negb].
    + assert (Hkey : In ("--" +++ slice2 token) argv0).
      { rewrite <- (option_token token Hopt). apply Hincl. now left. }
      destruct rest as [|next rest'].
      * apply Hstep; auto.
      * destruct (Js.truthy next && negb (startsWith "--" next)) eqn:Hval.
        -- apply andb_true_iff in Hval. destruct Hval as [Htr Hno].
           apply negb_true_iff in Hno.
           apply IH; [simpl in Hlen; lia | intros x Hx; apply Hrest; now right |].
           apply Hstep; auto. right. repeat split; auto. apply Hrest. now left.
        -- apply IH; [lia | exact Hrest |]. apply Hstep; auto.
    + apply IH; [lia | exact Hrest | exact HI].
Qed.

Lemma lookup_assign k key v values :
  lookup k (assign key v values)
  = if String.eqb key "__proto__" then lookup k values
    else if String.eqb k key then Some v else lookup k values.
Proof. unfold assign. destruct (String.eqb key "__proto__"); reflexivity. Qed.

(** Every property that [parseArgs] returns was asked for: its key stands
    after "--" in some argument, and its value is "true" or an argument that
    is not empty and is not itself an option. *)
Theorem parseArgs_values_come_from_argv (argv : list string) (k v : string) :
  lookup k (parseArgs argv) = Some v ->
  In ("--" +++ k) argv
  /\ (v = "true" \/ (In v argv /\ v <> "" /\ startsWith "--" v = false)).
Proof.
  unfold parseArgs. revert k v.
  apply (parseArgs_loop_inv
           (fun values => forall k v, lookup k values = Some v ->
              In ("--" +++ k) argv
              /\ (v = "true" \/ (In v argv /\ v <> "" /\ startsWith "--" v = false)))
           argv) with (n := List.length argv).
  - intros key v values HI Hkey Hv k w. rewrite lookup_assign.
    destruct (String.eqb key "__proto__"); [apply HI|].
    destruct (String.eqb k key) eqn:Hk; [|apply HI].
    apply String.eqb_eq in Hk. subst k. intros [= <-]. split; [exact Hkey|].
    destruct Hv as [->|[Hin [Htr Hno]]]; [now left | right].
    repeat split; auto. intros ->. discriminate.
  - lia.
  - apply incl_refl.
  - intros k v H. discriminate.
Qed.

Lemma parseArgs_values_come_from_argv_witness :
  In ("--" +++ "backend") ["--backend"; "memory"; "--verbose"]
  /\ ("memory" = "true"
      \/ (In "memory" ["--backend"; "memory"; "--verbose"] /\ "memory" <> ""
          /\ startsWith "--" "memory" = false)).
Proof.
  apply (parseArgs_values_come_from_argv ["--backend"; "memory"; "--verbose"]
           "backend" "memory").
  reflexivity.
Defined.

Lemma parseArgs_loop_keeps (k : string) (argv : list string) (values : Values) :
  ~ In ("--" +++ k) argv ->
  lookup k (parseArgs_loop argv values) = lookup k values.
Proof.
  intros Hnot.
  apply (parseArgs_loop_inv (fun values' => lookup k values' = lookup k values) argv)
    with (n := List.length argv); auto using incl_refl.
  intros key v values' HI Hkey _. rewrite lookup_assign.
  destruct (String.eqb key "__proto__"); [exact HI|].
  destruct (String.eqb k key) eqn:Hk; [|exact HI].
  apply String.eqb_eq in Hk. subst. contradiction.
Qed.

(** An argument that starts with "--" is never skipped and never taken as
    a value: the loop comes to stand on it. *)
Lemma parseArgs_loop_reaches (token : string) (tail : list string) :
  startsWith "--" token = true ->
  forall n pre values, (List.length pre <= n)%nat ->
    exists values', parseArgs_loop (pre ++ token :: tail) values
                    = parseArgs_loop (token :: tail) values'.
Proof.
  intros Hopt. remember (token :: tail) as target eqn:Htarget.
  induction n as [|n IH]; intros pre values Hlen.
  - destruct pre; [now exists values | simpl in Hlen; lia].
  - destruct pre as [|t pre']; [now exists values|].
    simpl in Hlen. cbn [app parseArgs_loop].
    destruct (startsWith "--" t); cbn [negb]; [|apply IH; lia].
    destruct pre' as [|next pre'']; cbn [app].
    + exists (assign (slice2 t) "true" values).
      destruct target as [|x xs]; [discriminate|]. injection Htarget as -> ->.
      rewrite Hopt. cbn [negb]. now rewrite andb_false_r.
    + destruct (Js.truthy next && negb (startsWith "--" next)).
      * apply IH. simpl in Hlen. lia.
      * apply (IH (next :: pre'')). lia.
Qed.

(** [--key value]: wherever the option stands on the command line, when
    its next argument is not empty and not an option, and the key is not
    given again later, the object holds the value under the key. *)
Theorem parseArgs_option_with_value (pre rest : list string) (k v : string) :
  k <> "__proto__" ->
  Js.truthy v = true -> startsWith "--" v = false ->
  ~ In ("--" +++ k) rest ->
  lookup k (parseArgs (pre ++ ("--" +++ k) :: v :: rest)) = Some v.
Proof.
  intros Hproto Htr Hno Hlater. unfold parseArgs.
  destruct (parseArgs_loop_reaches ("--" +++ k) (v :: rest) (startsWith_option k)
              (List.length pre) pre [] (Nat.le_refl _)) as [values' ->].
  cbn [parseArgs_loop]. rewrite startsWith_option, Htr, Hno. cbn [negb andb].
  rewrite parseArgs_loop_keeps by exact Hlater.
  rewrite lookup_assign, slice2_option.
  apply String.eqb_neq in Hproto. now rewrite Hproto, String.eqb_refl.
Qed.

Lemma parseArgs_option_with_value_witness :
  lookup "sqlite" (parseArgs (["--backend"; "sqlite"] ++ ("--" +++ "sqlite") :: "a.db"
                                :: ["--message"; "hi"]))
  = Some "a.db".
Proof.
  apply (parseArgs_option_with_value ["--backend"; "sqlite"] ["--message"; "hi"]
           "sqlite" "a.db").
  - discriminate.
  - reflexivity.
  - reflexivity.
  - simpl. intuition discriminate.
Defined.



(** The session id is the one given with [--session] when there is one,
    and otherwise "session-" followed by the clock reading; it is never
    empty. *)
Theorem getSessionId_given_or_fresh (now : Z) :
  (forall pre s rest,
     Js.truthy s = true -> startsWith "--" s = false -> ~ In "--session" rest ->
     getSessionId (parseArgs (pre ++ "--session" :: s :: rest)) now = s)
  /\ (forall argv, ~ In "--session" argv ->
        getSessionId (parseArgs argv) now = "session-" +++ Js.show_Z now)
  /\ (forall argv, Js.truthy (getSessionId (parseArgs argv) now) = true).
Proof.
  split; [|split].
  - intros pre s rest Htr Hno Hlater. unfold getSessionId.
    assert (H : lookup "session" (parseArgs (pre ++ "--session" :: s :: rest)) = Some s).
    { unfold parseArgs.
      destruct (parseArgs_loop_reaches "--session" (s :: rest) eq_refl
                  (List.length pre) pre [] (Nat.le_refl _)) as [values' ->].
      cbn [parseArgs_loop]. rewrite Htr, Hno.
      change (startsWith "--" "--session") with true. cbn [negb andb].
      rewrite (parseArgs_loop_keeps "session" rest _ Hlater). reflexivity. }
    rewrite H. now rewrite Htr.
  - intros argv Hnot. unfold getSessionId, parseArgs.
    now rewrite (parseArgs_loop_keeps "session" argv [] Hnot).
  - intros argv. unfold getSessionId.
    destruct (lookup "session" (parseArgs argv)) as [s|]; [|reflexivity].
    destruct (Js.truthy s) eqn:Hs; [exact Hs | reflexivity].
Qed.

End ArgsFacts.

(** * The start-up guard and the text of a chunk *)

Section StartupFacts.
Import Cli Main.

Lemma toolNames_spec (tools : list (option string)) (n : string) :
  In n (toolNames tools) <-> n <> "" /\ In (Some n) tools.
Proof.
  unfold toolNames. rewrite filter_In, in_map_iff. split.
  - intros [[t [Ht Hin]] Htr]. split; [intros ->; discriminate|].
    destruct t as [m|]; subst; [exact Hin | discriminate].
  - intros [Hne Hin]. split; [now exists (Some n)|].
    destruct n; [contradiction | reflexivity].
Qed.

Lemma required_nonempty (n : string) : In n REQUIRED_DB_TOOLS -> n <> "".
Proof. simpl. intros H Hn. subst. intuition discriminate. Qed.

Lemma filter_nil_iff {A : Type} (f : A -> bool) (l : list A) :
  filter f l = [] <-> forall x, In x l -> f x = false.
Proof.
  split; [|apply filter_none].
  intros Hnil x Hx. destruct (f x) eqn:Hf; [|reflexivity].
  assert (Hin : In x (filter f l)) by (apply filter_In; auto).
  rewrite Hnil in Hin. contradiction.
Qed.

(** The guard of the start-up lists exactly the required tools that the
    client does not offer under a string name, and lets the start-up go on
    exactly when all five are offered. *)
Theorem missingTools_are_the_required_not_offered (tools : list (option string)) :
  (forall n, In n (missingTools tools)
             <-> In n REQUIRED_DB_TOOLS /\ ~ In (Some n) tools)
  /\ (checkRequiredTools tools = None
      <-> forall n, In n REQUIRED_DB_TOOLS -> In (Some n) tools).
Proof.
  assert (Hmiss : forall n, In n (missingTools tools)
                            <-> In n REQUIRED_DB_TOOLS /\ ~ In (Some n) tools).
  { intros n. unfold missingTools. rewrite filter_In. split.
    - intros [Hreq Hnot]. split; [exact Hreq|]. intros Hin.
      apply negb_true_iff in Hnot.
      assert (Hex : existsb (String.eqb n) (toolNames tools) = true).
      { apply existsb_exists. exists n. split; [|apply String.eqb_refl].
        apply toolNames_spec. split; [now apply required_nonempty | exact Hin]. }
      congruence.
    - intros [Hreq Hnot]. split; [exact Hreq|]. apply negb_true_iff.
      destruct (existsb _ (toolNames tools)) eqn:Hex; [|reflexivity].
      apply existsb_exists in Hex. destruct Hex as [m [Hm Heq]].
      apply String.eqb_eq in Heq. subst m. apply toolNames_spec in Hm. tauto. }
  split; [exact Hmiss|].
  unfold checkRequiredTools. split.
  - intros Hnone n Hreq.
    destruct (missingTools tools) as [|m ms] eqn:Hm; [|discriminate].
    unfold missingTools in Hm.
    pose proof (proj1 (filter_nil_iff _ _) Hm n Hreq) as Hoffered.
    apply negb_false_iff, existsb_exists in Hoffered.
    destruct Hoffered as [m [Hin Heq]]. apply String.eqb_eq in Heq. subst m.
    now apply toolNames_spec in Hin.
  - intros Hall. destruct (missingTools tools) as [|m ms] eqn:Hm; [reflexivity|].
    exfalso. destruct (proj1 (Hmiss m) (or_introl eq_refl)) as [Hreq Hnot].
    apply Hnot. now apply Hall.
Qed.

Example checkRequiredTools_example :
  checkRequiredTools [Some "get_time_utc"; Some "search_web"; None; Some "get_by_id";
                      Some "get_from_db"]
  = Some ("Missing required MCP tools: save_to_db, get_all_from_db"
          +++ ". Restart MCP server with: pnpm --filter @lc/mcp-server dev").
Proof. reflexivity. Qed.

Lemma blocksText_spec (blocks : list Block) : forall text,
  blocksText blocks text = text +++ concat_all (block_texts blocks).
Proof.
  induction blocks as [|b blocks IH]; intros text; simpl.
  - now rewrite append_empty_r.
  - destruct b; simpl; rewrite IH; [reflexivity | now rewrite append_assoc | reflexivity].
Qed.

(** The text of a content array is the concatenation of the texts of its
    text blocks, in order; blocks of any other kind add nothing, and the text
    of two arrays put together is the text of the first followed by the text
    of the second. *)
Theorem extractChunkText_concatenates_text_blocks (blocks1 blocks2 : list Block) :
  extractChunkText (ArrayContent blocks1) = concat_all (block_texts blocks1)
  /\ extractChunkText (ArrayContent (blocks1 ++ blocks2))
     = extractChunkText (ArrayContent blocks1) +++ extractChunkText (ArrayContent blocks2)
  /\ extractChunkText (ArrayContent (NotAnObject :: OtherBlock :: blocks1))
     = extractChunkText (ArrayContent blocks1).
Proof.
  unfold extractChunkText. rewrite !blocksText_spec. simpl. split; [reflexivity|].
  split; [|reflexivity].
  unfold block_texts. rewrite flat_map_app. apply concat_all_app.
Qed.

Lemma model_fragments_app (s1 s2 : list Chunk) :
  model_fragments (s1 ++ s2) = model_fragments s1 ++ model_fragments s2.
Proof. unfold model_fragments. now rewrite filter_app, flat_map_app. Qed.

Lemma runTurn_shape (stream : list Chunk) :
  runTurn stream
  = mkTurn (model_fragments stream
            ++ [if Js.truthy (concat_all (model_fragments stream))
                then Js.nl else NO_TEXT_MARKER])
           (concat_all (model_fragments stream)).
Proof. unfold runTurn. rewrite fold_step. reflexivity. Qed.

(** A turn whose stream comes in two parts: what it streams is what the
    first part streams followed by what the second part streams, and so are
    its writes before the closing one. *)
Theorem runTurn_of_two_parts (s1 s2 : list Chunk) :
  streamed (runTurn (s1 ++ s2)) = streamed (runTurn s1) +++ streamed (runTurn s2)
  /\ removelast (stdout (runTurn (s1 ++ s2)))
     = removelast (stdout (runTurn s1)) ++ removelast (stdout (runTurn s2)).
Proof.
  rewrite !runTurn_shape. cbn [streamed stdout].
  rewrite !removelast_last, model_fragments_app. split; [apply concat_all_app | reflexivity].
Qed.

End StartupFacts.

(** * A result right after the search that stored it *)

Section SearchThenRead.
Import Cache TopicNews Server.






End SearchThenRead.

(** * What a streamed turn surfaces *)

Section TurnSurface.
Import Cli Main.

Lemma block_texts_text (blocks : list Block) :
  concat_all (block_texts blocks) = concat_all (map block_text blocks).
Proof.
  induction blocks as [|b blocks IH]; simpl; [reflexivity|].
  destruct b; simpl; rewrite <- IH; reflexivity.
Qed.

Lemma extractChunkText_content_text (content : Content) :
  extractChunkText content = content_text content.
Proof.
  destruct content as [s|blocks|]; simpl; try reflexivity.
  rewrite blocksText_spec. simpl. apply block_texts_text.
Qed.

Lemma fragment_response_text (chunk : Chunk) :
  (if from_model chunk then fragment chunk else [])
  = if Js.truthy (response_text chunk) then [response_text chunk] else [].
Proof.
  destruct chunk as [|content [node|]]; simpl; try reflexivity.
  destruct (String.eqb node "model"); [|reflexivity].
  rewrite extractChunkText_content_text. now destruct (content_text content).
Qed.

Lemma model_fragments_surfaced (stream : list Chunk) :
  model_fragments stream = surfaced stream.
Proof.
  unfold model_fragments, surfaced.
  induction stream as [|chunk stream IH]; [reflexivity|].
  cbn [filter map].
  pose proof (fragment_response_text chunk) as Hhead.
  destruct (from_model chunk), (Js.truthy (response_text chunk)); cbn [flat_map].
  - now rewrite Hhead, IH.
  - now rewrite Hhead, IH.
  - discriminate Hhead.
  - exact IH.
Qed.

Lemma surfaced_nonempty (stream : list Chunk) t : In t (surfaced stream) -> t <> "".
Proof.
  unfold surfaced. intros Hin. apply filter_In in Hin. destruct Hin as [_ Htr].
  intros ->. discriminate.
Qed.

Lemma append_length (a b : string) :
  String.length (a +++ b) = (String.length a + String.length b)%nat.
Proof. induction a as [|x a IH]; simpl; [|rewrite IH]; reflexivity. Qed.

Lemma append_inj_r (a b c : string) : a +++ c = b +++ c -> a = b.
Proof.
  revert b. induction a as [|x a IH]; intros [|y b] H; simpl in H.
  - reflexivity.
  - exfalso. apply (f_equal String.length) in H. simpl in H.
    rewrite append_length in H. lia.
  - exfalso. apply (f_equal String.length) in H. simpl in H.
    rewrite append_length in H. lia.
  - injection H as -> H. f_equal. now apply IH.
Qed.

Lemma output_line (stream : list Chunk) :
  output (runTurn stream)
  = match streamed (runTurn stream) with
    | EmptyString => "(no assistant text returned)"
    | text => text
    end +++ Js.nl.
Proof.
  rewrite runTurn_shape, model_fragments_surfaced. unfold output. cbn [stdout streamed].
  rewrite concat_all_app.
  destruct (concat_all (surfaced stream)) as [|x text]; reflexivity.
Qed.

(** C9, as the code has it.  In a streamed turn the writes to standard
    output are the non-empty texts of the chunks whose metadata names the node
    "model", in the order they arrive, followed by a closing write; [streamed]
    is their concatenation.  A chunk of any other node, a tool-result echo
    among them, or an element that is no pair, changes nothing wherever it
    stands in the stream.  The closing write is a line feed after text, and
    the line "(no assistant text returned)" when the concatenation is empty,
    so what reaches the output is the text, or that marker, and a line feed.
    The output of a turn with text differs from the output of an empty turn
    unless the text is itself "(no assistant text returned)". *)
Theorem runTurn_surfaces_model_response_only (stream : list Chunk) :
  stdout (runTurn stream)
  = surfaced stream
    ++ [match surfaced stream with
        | [] => "(no assistant text returned)" +++ Js.nl
        | _ => Js.nl
        end]
  /\ streamed (runTurn stream) = concat_all (surfaced stream)
  /\ (forall s1 s2 content node, node <> Some "model" ->
        runTurn (s1 ++ Pair content node :: s2) = runTurn (s1 ++ s2))
  /\ (forall s1 s2, runTurn (s1 ++ NotAnArray :: s2) = runTurn (s1 ++ s2))
  /\ output (runTurn stream)
     = match streamed (runTurn stream) with
       | EmptyString => "(no assistant text returned)"
       | text => text
       end +++ Js.nl
  /\ (forall other,
        streamed (runTurn stream) = "" -> streamed (runTurn other) <> "" ->
        (output (runTurn other) = output (runTurn stream)
         <-> streamed (runTurn other) = "(no assistant text returned)")).
Proof.
  assert (Hskip : forall chunk s1 s2, from_model chunk = false ->
                    runTurn (s1 ++ chunk :: s2) = runTurn (s1 ++ s2)).
  { intros chunk s1 s2 Hnot.
    assert (Hdrop : model_fragments (chunk :: s2) = model_fragments s2).
    { unfold model_fragments. cbn [filter]. now rewrite Hnot. }
    now rewrite !runTurn_shape, !model_fragments_app, Hdrop. }
  split; [|split; [|split; [|split; [|split]]]].
  - rewrite runTurn_shape, model_fragments_surfaced. f_equal. f_equal.
    pose proof (concat_all_empty _ (surfaced_nonempty stream)) as Hiff.
    destruct (surfaced stream) as [|t l]; [reflexivity|].
    destruct (Js.truthy (concat_all (t :: l))) eqn:Htruthy; [reflexivity|].
    assert (Hc : concat_all (t :: l) = "").
    { destruct (concat_all (t :: l)); [reflexivity | discriminate]. }
    apply Hiff in Hc. discriminate.
  - now rewrite runTurn_shape, model_fragments_surfaced.
  - intros s1 s2 content node Hnode. apply Hskip. simpl.
    destruct node as [n|]; [|reflexivity]. simpl.
    apply String.eqb_neq. intros ->. now apply Hnode.
  - intros s1 s2. now apply Hskip.
  - apply output_line.
  - intros other Hempty Htext. rewrite !output_line, Hempty.
    destruct (streamed (runTurn other)) as [|x text] eqn:Hother; [contradiction|].
    split.
    + apply append_inj_r.
    + now intros ->.
Qed.

(** C9 as stated fails on the output: a turn in which the model answers
    with the very words of the marker streams text, and yet what it writes is,
    byte for byte, what a turn without any text writes. *)
Lemma marker_text_reads_as_empty_turn :
  streamed (runTurn [Pair (StringContent "(no assistant text returned)") (Some "model")])
  = "(no assistant text returned)"
  /\ streamed (runTurn []) = ""
  /\ output (runTurn [Pair (StringContent "(no assistant text returned)") (Some "model")])
     = output (runTurn [])
  /\ ~ (output (runTurn [Pair (StringContent "(no assistant text returned)")
                           (Some "model")])
        <> output (runTurn [])).
Proof.
  split; [reflexivity|]. split; [reflexivity|]. split; [reflexivity|].
  intros H. apply H. reflexivity.
Qed.

End TurnSurface.
